(** * Two-pointer algorithms of learn-go: a shallow embedding and its properties

    The three functions of [algorithms/two_pointers] are embedded here:
    [threeSum] (three_sum.go), [removeNthFromEnd]
    (remove_nth_node_from_the_end_of_list.go) and [isPalindrome]
    (is_palindromic.go).

    - Go's [int] is a 64-bit two's complement integer: values are [Z] and
      every addition on values goes through [wrap].  Index expressions stay
      between [-2] and the length of the slice, far from the bounds of
      [int], and are computed in [Z].
    - A slice index out of range and a nil dereference panic in Go: code that
      indexes or dereferences returns an [outcome].
    - [for] loops without a syntactic bound take fuel; the theorems show
      that the fuel given is enough, so [OutOfFuel] is never the result.
    - The linked list lives in a heap ([gmap] from locations to nodes);
      a [*ListNode] is an [option loc], [None] being [nil]. *)

From Stdlib Require Import ZArith Lia.
From Stdlib Require Import Strings.Byte Strings.String.
From stdpp Require Import base tactics option list sorting gmap strings.

Local Open Scope Z_scope.

(** ** Outcomes of a run *)

Inductive outcome (A : Type) : Type :=
| Ok (a : A)
| Panic
| OutOfFuel.

Arguments Ok {A} a.
Arguments Panic {A}.
Arguments OutOfFuel {A}.

Global Instance outcome_ret : MRet outcome := λ A a, Ok a.

Global Instance outcome_bind : MBind outcome := λ A B k m,
  match m with
  | Ok a => k a
  | Panic => Panic
  | OutOfFuel => OutOfFuel
  end.

(** ** Go's [int] *)

Module GoInt.

Definition min_int : Z := - 2 ^ 63.
Definition max_int : Z := 2 ^ 63 - 1.

(** The value of an integer expression after two's complement wrap-around. *)
Definition wrap (z : Z) : Z := (z + 2 ^ 63) mod 2 ^ 64 - 2 ^ 63.

(** [a + b] on Go ints. *)
Definition add (a b : Z) : Z := wrap (a + b).

Definition is_int (z : Z) : Prop := min_int <= z <= max_int.

End GoInt.

(** ** Slices and strings *)

(** [s[i]] on a slice or a string: panics when [i] is out of range. *)
Definition index {A : Type} (s : list A) (i : Z) : outcome A :=
  if i <? 0 then Panic
  else match s !! Z.to_nat i with
       | Some x => Ok x
       | None => Panic
       end.

(** [len(nums)] *)
Definition len {A} (l : list A) : Z := Z.of_nat (length l).

(** [sort.Ints]: the slice in increasing order.  The library routine is not
    part of the repository; on ints its result is determined by its
    contract (see [sorted_perm_unique]), here computed by merge sort. *)
Definition sort_Ints (nums : list Z) : list Z := merge_sort Z.le nums.

(** ** three_sum.go *)

Module ThreeSum.

(** [for left+1 < right && nums[left] == nums[left+1] { left++ }] *)
Fixpoint skip_left (fuel : nat) (nums : list Z) (left right : Z) : outcome Z :=
  match fuel with
  | O => OutOfFuel
  | S fuel' =>
      if left + 1 <? right then
        a ← index nums left;
        b ← index nums (left + 1);
        if a =? b then skip_left fuel' nums (left + 1) right
        else Ok left
      else Ok left
  end.

(** [for left < right-1 && nums[right] == nums[right-1] { right-- }] *)
Fixpoint skip_right (fuel : nat) (nums : list Z) (left right : Z) : outcome Z :=
  match fuel with
  | O => OutOfFuel
  | S fuel' =>
      if left <? right - 1 then
        a ← index nums right;
        b ← index nums (right - 1);
        if a =? b then skip_right fuel' nums left (right - 1)
        else Ok right
      else Ok right
  end.

(** The inner loop [for left < right { ... }] for the anchor value [v]. *)
Fixpoint scan (fuel : nat) (nums : list Z) (v left right : Z)
    (result : list (list Z)) : outcome (list (list Z)) :=
  match fuel with
  | O => OutOfFuel
  | S fuel' =>
      if left <? right then
        a ← index nums left;
        b ← index nums right;
        let total := GoInt.add (GoInt.add a b) v in
        if total =? 0 then
          let result := result ++ [[v; a; b]] in
          left ← skip_left fuel nums left right;
          let left := left + 1 in
          right ← skip_right fuel nums left right;
          let right := right - 1 in
          scan fuel' nums v left right result
        else if total <? 0 then scan fuel' nums v (left + 1) right result
        else scan fuel' nums v left (right - 1) result
      else Ok result
  end.

(** The outer loop [for i := 0; i < n-2; i++ { ... }], entered at [i]. *)
Fixpoint anchors (fuel : nat) (nums : list Z) (n i : Z)
    (result : list (list Z)) : outcome (list (list Z)) :=
  match fuel with
  | O => OutOfFuel
  | S fuel' =>
      if i <? n - 2 then
        v ← index nums i;
        if 0 <? v then Ok result
        else
          skip ← (if 0 <? i then
                    a ← index nums i;
                    b ← index nums (i - 1);
                    Ok (a =? b)
                  else Ok false);
          if (skip : bool) then anchors fuel' nums n (i + 1) result
          else
            result ← scan fuel nums v (i + 1) (n - 1) result;
            anchors fuel' nums n (i + 1) result
      else Ok result
  end.

(** [threeSum(nums)]: the caller's slice after the call, and the value
    returned. *)
Definition threeSum (nums : list Z) : list Z * outcome (list (list Z)) :=
  let nums := sort_Ints nums in
  let n := len nums in
  (nums, anchors (S (length nums)) nums n 0 []).

End ThreeSum.

(** ** remove_nth_node_from_the_end_of_list.go *)

Module LinkedList.

Definition loc : Type := positive.

(** [type ListNode struct { value int; next *ListNode }] *)
Record ListNode : Type := mkListNode { value : Z; next : option loc }.

Abbreviation ptr := (option loc).
Abbreviation heap := (gmap loc ListNode).

(** [&ListNode{...}]: a node at an address not in use. *)
Definition new_node (h : heap) (nd : ListNode) : heap * loc :=
  let l := fresh (dom h) in (<[l := nd]> h, l).

(** [p.next] as a value: panics on [nil]. *)
Definition get_next (h : heap) (p : ptr) : outcome ptr :=
  match p with
  | None => Panic
  | Some l => match h !! l with
              | Some nd => Ok (next nd)
              | None => Panic
              end
  end.

(** [p.next = q]: panics on [nil]. *)
Definition set_next (h : heap) (p q : ptr) : outcome heap :=
  match p with
  | None => Panic
  | Some l => match h !! l with
              | Some nd => Ok (<[l := mkListNode (value nd) q]> h)
              | None => Panic
              end
  end.

(** The first loop,
    [for i := 0; i < n; i++ { if rightPtr.next == nil { return head }; rightPtr = rightPtr.next }],
    entered at [i].  [Ok None]: the function returned [head] from inside
    the loop; [Ok (Some p)]: the loop ended with [rightPtr = p]. *)
Fixpoint advance (fuel : nat) (h : heap) (rightPtr : ptr) (i n : Z)
    : outcome (option ptr) :=
  match fuel with
  | O => OutOfFuel
  | S fuel' =>
      if i <? n then
        nx ← get_next h rightPtr;
        match nx with
        | None => Ok None
        | Some _ =>
            rightPtr ← get_next h rightPtr;
            advance fuel' h rightPtr (i + 1) n
        end
      else Ok (Some rightPtr)
  end.

(** The second loop,
    [for rightPtr.next != nil { rightPtr = rightPtr.next; leftPtr = leftPtr.next }];
    the result is [(rightPtr, leftPtr)] at its end. *)
Fixpoint follow (fuel : nat) (h : heap) (rightPtr leftPtr : ptr)
    : outcome (ptr * ptr) :=
  match fuel with
  | O => OutOfFuel
  | S fuel' =>
      nx ← get_next h rightPtr;
      match nx with
      | Some _ =>
          rightPtr ← get_next h rightPtr;
          leftPtr ← get_next h leftPtr;
          follow fuel' h rightPtr leftPtr
      | None => Ok (rightPtr, leftPtr)
      end
  end.

(** [removeNthFromEnd(head, n)]: the heap after the call and the pointer
    returned. *)
Definition removeNthFromEnd (fuel : nat) (h : heap) (head : ptr) (n : Z)
    : outcome (heap * ptr) :=
  if bool_decide (head = None) || (n <=? 0) then Ok (h, head)
  else
    let '(h, currentPtr) := new_node h (mkListNode 0 head) in
    let rightPtr := Some currentPtr in
    let leftPtr := Some currentPtr in
    r ← advance fuel h rightPtr 0 n;
    match r with
    | None => Ok (h, head)
    | Some rightPtr =>
        '(rightPtr, leftPtr) ← follow fuel h rightPtr leftPtr;
        a ← get_next h leftPtr;
        b ← get_next h a;
        h ← set_next h leftPtr b;
        res ← get_next h (Some currentPtr);
        Ok (h, res)
    end.

(** The chain from [p] goes through exactly the nodes [nodes] (address and
    value, in order) and then reaches [nil]: a finite list without a
    cycle. *)
Fixpoint is_list (h : heap) (p : ptr) (nodes : list (loc * Z)) : Prop :=
  match nodes with
  | [] => p = None
  | (l, v) :: nodes' =>
      p = Some l ∧ ∃ q, h !! l = Some (mkListNode v q) ∧ is_list h q nodes'
  end.

(** A list with the values [vs], built back to front the way [main]
    builds [1 -> 2 -> 3 -> 4 -> 5]. *)
Fixpoint build (h : heap) (vs : list Z) : heap * ptr :=
  match vs with
  | [] => (h, None)
  | v :: vs' =>
      let '(h, q) := build h vs' in
      let '(h, l) := new_node h (mkListNode v q) in
      (h, Some l)
  end.

(** The values met from [p] on, as [printList] prints them. *)
Fixpoint values (fuel : nat) (h : heap) (p : ptr) : outcome (list Z) :=
  match fuel with
  | O => OutOfFuel
  | S fuel' =>
      match p with
      | None => Ok []
      | Some l =>
          match h !! l with
          | Some nd => vs ← values fuel' h (next nd); Ok (value nd :: vs)
          | None => Panic
          end
      end
  end.

(** Build the list [vs], call [removeNthFromEnd] on it, read the result. *)
Definition run (vs : list Z) (n : Z) : outcome (list Z) :=
  let '(h, head) := build ∅ vs in
  '(h, head) ← removeNthFromEnd (S (length vs)) h head n;
  values (S (length vs)) h head.

End LinkedList.

(** ** is_palindromic.go *)

Module Palindrome.

(** [for left < right { if s[left] != s[right] { return false }; left++; right-- }; return true] *)
Fixpoint loop (fuel : nat) (s : list byte) (left right : Z) : outcome bool :=
  match fuel with
  | O => OutOfFuel
  | S fuel' =>
      if left <? right then
        a ← index s left;
        b ← index s right;
        if negb (Byte.eqb a b) then Ok false
        else loop fuel' s (left + 1) (right - 1)
      else Ok true
  end.

(** [isPalindrome(s)]: a Go string is its sequence of bytes. *)
Definition isPalindrome (s : list byte) : outcome bool :=
  loop (S (length s)) s 0 (len s - 1).

End Palindrome.

(** ** functions.md: the functions of the tutorial *)

(** More of Go's arithmetic on [int]. *)
Module GoArith.
Import GoInt.

(** [a - b], [a * b] *)
Definition sub (a b : Z) : Z := wrap (a - b).
Definition mul (a b : Z) : Z := wrap (a * b).

(** [a / b] and [a % b] for [b != 0]: the quotient is truncated towards
    zero, and wraps in the one case where it does not fit,
    [MinInt / -1]. *)
Definition quo (a b : Z) : Z := wrap (Z.quot a b).
Definition rem (a b : Z) : Z := Z.rem a b.

End GoArith.

Module Tutorial.
Import GoInt GoArith.

(** [divide(dividend, divisor)]: quotient, remainder and error; the error
    is [nil] ([None]) or carries its message. *)
Definition divide (dividend divisor : Z) : Z * Z * option string :=
  if divisor =? 0 then (0, 0, Some "division by zero is not allowed"%string)
  else
    let quotient := quo dividend divisor in
    let remainder := rem dividend divisor in
    (quotient, remainder, None).

(** [factorial(n)]: one unit of fuel for each call on the stack. *)
Fixpoint factorial (fuel : nat) (n : Z) : outcome Z :=
  match fuel with
  | O => OutOfFuel
  | S fuel' =>
      if n =? 0 then Ok 1
      else r ← factorial fuel' (sub n 1); Ok (mul n r)
  end.

(** [counter()]: the closure returned owns the variable [count]; its state
    is the value of [count]. *)
Definition counter : Z := 0.

(** A call of the closure: the new state and the value returned. *)
Definition counter_next (count : Z) : Z * Z :=
  let count := add count 1 in (count, count).

(** [k] calls in a row: the last state and the values returned. *)
Fixpoint counter_calls (k : nat) (count : Z) : Z * list Z :=
  match k with
  | O => (count, [])
  | S k' =>
      let '(count, r) := counter_next count in
      let '(count, rs) := counter_calls k' count in
      (count, r :: rs)
  end.

(** [memoize()]: the closure returned owns the map [cache]. *)
Definition memoize : gmap Z Z := ∅.

(** A call of the closure on [n]: the new cache and the value returned. *)
Definition compute (cache : gmap Z Z) (n : Z) : gmap Z Z * Z :=
  match cache !! n with
  | Some result => (cache, result)
  | None =>
      let result := mul n n in
      (<[n := result]> cache, result)
  end.

(** Calls of the closure on the numbers of [ns], one after the other. *)
Fixpoint compute_all (cache : gmap Z Z) (ns : list Z) : gmap Z Z * list Z :=
  match ns with
  | [] => (cache, [])
  | n :: ns' =>
      let '(cache, r) := compute cache n in
      let '(cache, rs) := compute_all cache ns' in
      (cache, r :: rs)
  end.

(** The loop of [filter], on what is left of the slice. *)
Fixpoint filter_loop (f : Z → bool) (slice result : list Z) : list Z :=
  match slice with
  | [] => result
  | val :: slice' =>
      if f val then filter_loop f slice' (result ++ [val])
      else filter_loop f slice' result
  end.

(** [filter(slice, f)]: [result] starts as the nil slice. *)
Definition filter (slice : list Z) (f : Z → bool) : list Z :=
  filter_loop f slice [].

(** [result[i] = x]: panics when [i] is out of range. *)
Definition store {A : Type} (result : list A) (i : Z) (x : A)
    : outcome (list A) :=
  if (0 <=? i) && (i <? len result) then Ok (<[Z.to_nat i := x]> result)
  else Panic.

(** The loop of [mapStrings], [for i, v := range input], entered at index
    [i] with what is left of [input]. *)
Fixpoint mapStrings_loop (transform : string → string) (input : list string)
    (i : Z) (result : list string) : outcome (list string) :=
  match input with
  | [] => Ok result
  | v :: input' =>
      result ← store result i (transform v);
      mapStrings_loop transform input' (i + 1) result
  end.

(** [mapStrings(input, transform)]: [make([]string, len(input))] is a
    slice of empty strings. *)
Definition mapStrings (input : list string) (transform : string → string)
    : outcome (list string) :=
  let result := replicate (length input) EmptyString in
  mapStrings_loop transform input 0 result.

End Tutorial.

(** ** functions.md: the solution in Python *)

(** Python's ints have no bound: arithmetic is that of [Z].  An index from
    [-len] to [-1] counts from the end of the list, and an index out of
    range raises [IndexError], here [Panic]. *)
Module PyThreeSum.

(** [nums[i]] *)
Definition py_index (nums : list Z) (i : Z) : outcome Z :=
  let i := if i <? 0 then i + len nums else i in
  index nums i.

(** [while left + 1 < right and nums[left + 1] == nums[left]: left += 1] *)
Fixpoint skip_left (fuel : nat) (nums : list Z) (left right : Z) : outcome Z :=
  match fuel with
  | O => OutOfFuel
  | S fuel' =>
      if left + 1 <? right then
        a ← py_index nums (left + 1);
        b ← py_index nums left;
        if a =? b then skip_left fuel' nums (left + 1) right
        else Ok left
      else Ok left
  end.

(** [while right - 1 > left and nums[right - 1] == nums[right]: right -= 1] *)
Fixpoint skip_right (fuel : nat) (nums : list Z) (left right : Z) : outcome Z :=
  match fuel with
  | O => OutOfFuel
  | S fuel' =>
      if left <? right - 1 then
        a ← py_index nums (right - 1);
        b ← py_index nums right;
        if a =? b then skip_right fuel' nums left (right - 1)
        else Ok right
      else Ok right
  end.

(** The loop [while left < right: ...] of [find_two_sum_pairs]. *)
Fixpoint pairs_loop (fuel : nat) (nums : list Z) (target_sum left right : Z)
    (triplets : list (list Z)) : outcome (list (list Z)) :=
  match fuel with
  | O => OutOfFuel
  | S fuel' =>
      if left <? right then
        a ← py_index nums left;
        b ← py_index nums right;
        let current_sum := a + b in
        if current_sum =? target_sum then
          a ← py_index nums left;
          b ← py_index nums right;
          let triplets := triplets ++ [[- target_sum; a; b]] in
          left ← skip_left fuel nums left right;
          right ← skip_right fuel nums left right;
          pairs_loop fuel' nums target_sum (left + 1) (right - 1) triplets
        else if current_sum <? target_sum then
          pairs_loop fuel' nums target_sum (left + 1) right triplets
        else pairs_loop fuel' nums target_sum left (right - 1) triplets
      else Ok triplets
  end.

(** [find_two_sum_pairs(start_index, array_length, target_sum, nums)] *)
Definition find_two_sum_pairs (start_index array_length target_sum : Z)
    (nums : list Z) : outcome (list (list Z)) :=
  pairs_loop (S (length nums)) nums target_sum
    start_index (array_length - 1) [].

(** The loop [for i in range(array_length): ...] of [three_sum], on what is
    left of the range. *)
Fixpoint range_loop (range : list Z) (nums : list Z) (array_length : Z)
    (result : list (list Z)) : outcome (list (list Z)) :=
  match range with
  | [] => Ok result
  | i :: range' =>
      v ← py_index nums i;
      if 0 <? v then Ok result
      else
        skip ← (if 0 <? i then
                  a ← py_index nums i;
                  b ← py_index nums (i - 1);
                  Ok (a =? b)
                else Ok false);
        if (skip : bool) then range_loop range' nums array_length result
        else
          v ← py_index nums i;
          triplets ← find_two_sum_pairs (i + 1) array_length (- v) nums;
          range_loop range' nums array_length (result ++ triplets)
  end.

(** [three_sum(nums)]: the caller's list after the call, and the value
    returned. *)
Definition three_sum (nums : list Z) : list Z * outcome (list (list Z)) :=
  let nums := sort_Ints nums in
  let array_length := len nums in
  (nums, range_loop (seqZ 0 array_length) nums array_length []).

End PyThreeSum.

(** * Vocabulary of the statements *)

(** The element at index [i] of a slice, for statements about indices in
    range (out of range, where [nums[i]] panics, its value is immaterial). *)
Definition val (nums : list Z) (i : Z) : Z := nums !!! Z.to_nat i.

Module TripletSpec.
Import GoInt.

(** The sum of a triplet as an integer. *)
Definition triplet_sum (t : list Z) : Z := foldr Z.add 0 t.

(** The sum of a triplet as Go computes [t[0] + t[1] + t[2]]. *)
Definition go_sum (t : list Z) : Z := foldl add 0 t.

(** Three elements of [nums], at three different positions, whose sum
    (computed by [sum]) is zero. *)
Definition has_zero_triplet (sum : list Z → Z) (nums : list Z) : Prop :=
  ∃ a b c rest, nums ≡ₚ a :: b :: c :: rest ∧ sum [a; b; c] = 0.

(** Triplets are compared on their first two values. *)
Definition triplet_lt (t1 t2 : list Z) : Prop :=
  t1 !!! 0%nat < t2 !!! 0%nat
  ∨ (t1 !!! 0%nat = t2 !!! 0%nat ∧ t1 !!! 1%nat < t2 !!! 1%nat).

(** [t] is what the inner loop appends for the anchor value [v] with its
    two indices between [lo] and [hi]. *)
Definition emitted (nums : list Z) (v lo hi : Z) (t : list Z) : Prop :=
  ∃ l r, lo <= l ∧ l < r ∧ r <= hi
         ∧ t = [v; val nums l; val nums r]
         ∧ wrap (val nums l + val nums r + v) = 0.

(** [t] is what the outer loop appends for some anchor index from [i] on. *)
Definition emitted_from (nums : list Z) (i : Z) (t : list Z) : Prop :=
  ∃ j, i <= j ∧ val nums j <= 0
       ∧ (j = 0 ∨ val nums (j - 1) < val nums j)
       ∧ emitted nums (val nums j) (j + 1) (len nums - 1) t.

(** The input on which a sum overflows: [-2^63, -2^63, 0]. *)
Definition overflow_input : list Z := [min_int; min_int; 0].

End TripletSpec.

Module ListSpec.
Import LinkedList.

(** The pointer to node [i] of a chain; [nil] past its end. *)
Definition node_ptr (nodes : list (loc * Z)) (i : nat) : ptr :=
  fst <$> nodes !! i.

(** The chain [nodes] without its [n]-th node from the end, and [nodes]
    itself when there is no such node. *)
Definition removed (nodes : list (loc * Z)) (n : Z) : list (loc * Z) :=
  if (1 <=? n) && (n <=? len nodes)
  then delete (Z.to_nat (len nodes - n)) nodes
  else nodes.

End ListSpec.

(** [k!] as an integer. *)
Fixpoint zfact (k : nat) : Z :=
  match k with
  | O => 1
  | S k' => Z.of_nat k * zfact k'
  end.

(** The cache of [memoize] holds squares only. *)
Definition squares (cache : gmap Z Z) : Prop :=
  ∀ k v, cache !! k = Some v → v = GoArith.mul k k.

Module PySpec.

(** [t] is what [find_two_sum_pairs] appends for two indices between [lo]
    and [hi]. *)
Definition pair_found (nums : list Z) (target lo hi : Z) (t : list Z) : Prop :=
  ∃ l r, lo <= l ∧ l < r ∧ r <= hi
         ∧ t = [- target; val nums l; val nums r]
         ∧ val nums l + val nums r = target.

(** [t] is what [three_sum] appends for some index of the range from [i]
    on. *)
Definition triplet_found (nums : list Z) (i : Z) (t : list Z) : Prop :=
  ∃ j l r, i <= j ∧ j < l ∧ l < r ∧ r < len nums
           ∧ (j = 0 ∨ val nums (j - 1) < val nums j)
           ∧ t = [val nums j; val nums l; val nums r]
           ∧ val nums j + val nums l + val nums r = 0.

End PySpec.

Module CycleSpec.
Import LinkedList.

(** Every node of the set [S] has a successor, which is in [S] again. *)
Definition closed (h : heap) (S : loc → Prop) : Prop :=
  ∀ l, S l → ∃ v l', h !! l = Some (mkListNode v (Some l')) ∧ S l'.

(** The chain from [p] never reaches [nil]: in a finite heap, it runs into
    a cycle. *)
Definition endless (h : heap) (p : ptr) : Prop :=
  ∃ (S : loc → Prop) (l : loc), p = Some l ∧ S l ∧ closed h S.

End CycleSpec.

Global Instance byte_eq_dec : EqDecision byte := Byte.byte_eq_dec.

(** A Go string holds bytes; its characters are the code points these
    bytes encode in UTF-8, the encoding of string literals and of
    [string(rune)]. *)
Module GoString.

(** The byte with the value [z] (modulo 256). *)
Definition byte_of_Z (z : Z) : byte :=
  default Byte.x00 (Byte.of_N (Z.to_N (z mod 256))).

(** The bytes of one character: one to four of them; a code point that is
    not valid is written as U+FFFD. *)
Definition utf8_encode_rune (r : Z) : list byte :=
  if (r <? 0) || (0x10FFFF <? r) || ((0xD800 <=? r) && (r <=? 0xDFFF))
  then [Byte.xef; Byte.xbf; Byte.xbd]
  else if r <? 0x80 then [byte_of_Z r]
  else if r <? 0x800 then
    [byte_of_Z (Z.lor 0xC0 (Z.shiftr r 6));
     byte_of_Z (Z.lor 0x80 (Z.land r 0x3F))]
  else if r <? 0x10000 then
    [byte_of_Z (Z.lor 0xE0 (Z.shiftr r 12));
     byte_of_Z (Z.lor 0x80 (Z.land (Z.shiftr r 6) 0x3F));
     byte_of_Z (Z.lor 0x80 (Z.land r 0x3F))]
  else
    [byte_of_Z (Z.lor 0xF0 (Z.shiftr r 18));
     byte_of_Z (Z.lor 0x80 (Z.land (Z.shiftr r 12) 0x3F));
     byte_of_Z (Z.lor 0x80 (Z.land (Z.shiftr r 6) 0x3F));
     byte_of_Z (Z.lor 0x80 (Z.land r 0x3F))].

(** The string whose characters are [chars]. *)
Definition utf8_encode (chars : list Z) : list byte :=
  foldr (λ r s, utf8_encode_rune r ++ s) [] chars.

(** A character of one byte. *)
Definition is_ascii (r : Z) : Prop := 0 <= r < 128.

End GoString.

(** * Properties *)

(** ** Outcomes, indexing and wrap-around *)

Lemma bind_Ok {A B : Type} (m : outcome A) (k : A → outcome B) (a : A) :
  m = Ok a → (m ≫= k) = k a.
Proof. by intros ->. Qed.

Lemma len_cons {A : Type} (x : A) (l : list A) : len (x :: l) = 1 + len l.
Proof. unfold len. simpl. lia. Qed.

Lemma len_app {A : Type} (l1 l2 : list A) : len (l1 ++ l2) = len l1 + len l2.
Proof. unfold len. rewrite length_app. lia. Qed.

Lemma len_nonneg {A : Type} (l : list A) : 0 <= len l.
Proof. unfold len. lia. Qed.

Lemma index_lookup {A : Type} (s : list A) (i : Z) (x : A) :
  0 <= i → s !! Z.to_nat i = Some x → index s i = Ok x.
Proof.
  intros Hi Hx. unfold index.
  destruct (Z.ltb_spec i 0) as [?|_]; [lia|]. by rewrite Hx.
Qed.

Lemma index_val (nums : list Z) (i : Z) :
  0 <= i < len nums → index nums i = Ok (val nums i).
Proof.
  intros [Hi Hn]. apply index_lookup; [done|].
  apply list_lookup_lookup_total_lt. unfold len in Hn. lia.
Qed.

Lemma val_sorted (nums : list Z) (i j : Z) :
  StronglySorted Z.le nums → 0 <= i <= j → j < len nums →
  val nums i <= val nums j.
Proof.
  intros Hs [Hi Hij] Hj. unfold val, len in *.
  destruct (decide (i = j)) as [->|Hne]; [lia|].
  assert (Hlt : (Z.to_nat i < Z.to_nat j)%nat) by lia.
  assert (Hjn : (Z.to_nat j < length nums)%nat) by lia.
  revert Hlt Hjn. generalize (Z.to_nat i) (Z.to_nat j). clear Hi Hij Hj Hne i j.
  induction Hs as [|x l Hs IH Hx]; intros i j Hlt Hjn; simpl in *; [lia|].
  destruct j as [|j]; [lia|]. destruct i as [|i].
  - change (x <= l !!! j). rewrite Forall_forall in Hx. apply Hx.
    apply list_elem_of_lookup. exists j.
    apply list_lookup_lookup_total_lt. lia.
  - change (l !!! i <= l !!! j). apply IH; lia.
Qed.

Module GoIntFacts.
Import GoInt.

Lemma wrap_wrap_add (x y : Z) : wrap (wrap x + y) = wrap (x + y).
Proof.
  unfold wrap. f_equal.
  replace ((x + 2 ^ 63) mod 2 ^ 64 - 2 ^ 63 + y + 2 ^ 63)
    with ((x + 2 ^ 63) mod 2 ^ 64 + y) by lia.
  rewrite Zplus_mod_idemp_l. f_equal. lia.
Qed.

Lemma add_add (a b v : Z) : add (add a b) v = wrap (a + b + v).
Proof. unfold add. apply wrap_wrap_add. Qed.

Lemma wrap_id (z : Z) : is_int z → wrap z = z.
Proof.
  unfold is_int, min_int, max_int, wrap. intros Hz.
  rewrite Z.mod_small; lia.
Qed.

(** A wrapped sum is zero exactly when the sum is a multiple of [2^64]. *)
Lemma wrap_zero (z : Z) : wrap z = 0 ↔ ∃ k, z = k * 2 ^ 64.
Proof.
  unfold wrap. split.
  - intros H. exists ((z + 2 ^ 63) / 2 ^ 64).
    pose proof (Z.div_mod (z + 2 ^ 63) (2 ^ 64) ltac:(lia)). lia.
  - intros [k ->].
    replace (k * 2 ^ 64 + 2 ^ 63) with (2 ^ 63 + k * 2 ^ 64) by lia.
    rewrite Z_mod_plus_full. rewrite Z.mod_small; lia.
Qed.

(** Between [-2^64] and [2^64], a wrapped sum that is zero is zero. *)
Lemma wrap_zero_small (z : Z) :
  - 2 ^ 64 < z < 2 ^ 64 → wrap z = 0 → z = 0.
Proof. intros Hz [k ->]%wrap_zero. nia. Qed.

End GoIntFacts.

(** ** threeSum: the loops *)

Module ThreeSumFacts.
Import GoInt GoIntFacts ThreeSum TripletSpec.

Lemma emitted_mono nums v lo hi lo' hi' t :
  lo' <= lo → hi <= hi' → emitted nums v lo hi t → emitted nums v lo' hi' t.
Proof.
  intros ?? (l & r & ? & ? & ? & ? & ?). exists l, r. repeat split; try done; lia.
Qed.

(** One turn of the inner loop. *)
Lemma scan_S fuel nums v left right result :
  scan (S fuel) nums v left right result =
    if left <? right then
      a ← index nums left;
      b ← index nums right;
      if add (add a b) v =? 0 then
        left' ← skip_left (S fuel) nums left right;
        right' ← skip_right (S fuel) nums (left' + 1) right;
        scan fuel nums v (left' + 1) (right' - 1) (result ++ [[v; a; b]])
      else if add (add a b) v <? 0 then scan fuel nums v (left + 1) right result
      else scan fuel nums v left (right - 1) result
    else Ok result.
Proof. reflexivity. Qed.

(** One turn of the outer loop. *)
Lemma anchors_S fuel nums n i result :
  anchors (S fuel) nums n i result =
    if i <? n - 2 then
      v ← index nums i;
      if 0 <? v then Ok result
      else
        skip ← (if 0 <? i then
                  a ← index nums i;
                  b ← index nums (i - 1);
                  Ok (a =? b)
                else Ok false);
        if (skip : bool) then anchors fuel nums n (i + 1) result
        else
          result ← scan (S fuel) nums v (i + 1) (n - 1) result;
          anchors fuel nums n (i + 1) result
    else Ok result.
Proof. reflexivity. Qed.

Section loops.
Variable nums : list Z.
Hypothesis nums_sorted : StronglySorted Z.le nums.

Lemma skip_left_spec (fuel : nat) (left right : Z) :
  0 <= left < right → right < len nums → right - left < Z.of_nat fuel →
  ∃ left', skip_left fuel nums left right = Ok left'
           ∧ left <= left' < right
           ∧ val nums left' = val nums left
           ∧ (left' + 1 < right → val nums left' ≠ val nums (left' + 1)).
Proof.
  revert left. induction fuel as [|fuel IH]; intros left Hl Hr Hf; [lia|].
  simpl. destruct (Z.ltb_spec (left + 1) right) as [Hlt|Hge].
  - rewrite (bind_Ok _ _ _ (index_val nums left ltac:(lia))).
    rewrite (bind_Ok _ _ _ (index_val nums (left + 1) ltac:(lia))).
    destruct (Z.eqb_spec (val nums left) (val nums (left + 1))) as [Heq|Hne].
    + destruct (IH (left + 1)) as (left' & -> & ? & Hv & ?); [lia..|].
      exists left'. rewrite Hv. repeat split; try done; lia.
    + exists left. repeat split; try done; lia.
  - exists left. repeat split; try done; lia.
Qed.

Lemma skip_right_spec (fuel : nat) (left right : Z) :
  0 <= left <= right → right < len nums → right - left < Z.of_nat fuel →
  ∃ right', skip_right fuel nums left right = Ok right'
            ∧ left <= right' <= right.
Proof.
  revert right. induction fuel as [|fuel IH]; intros right Hl Hr Hf; [lia|].
  simpl. destruct (Z.ltb_spec left (right - 1)) as [Hlt|Hge].
  - rewrite (bind_Ok _ _ _ (index_val nums right ltac:(lia))).
    rewrite (bind_Ok _ _ _ (index_val nums (right - 1) ltac:(lia))).
    destruct (Z.eqb_spec (val nums right) (val nums (right - 1))) as [Heq|Hne].
    + destruct (IH (right - 1)) as (right' & -> & ?); [lia..|].
      exists right'. split; [done|lia].
    + exists right. split; [done|lia].
  - exists right. split; [done|lia].
Qed.

Lemma scan_spec (fuel : nat) (v left right : Z) (result : list (list Z)) :
  0 <= left → right < len nums → Z.max 0 (right - left) < Z.of_nat fuel →
  ∃ out, scan fuel nums v left right result = Ok (result ++ out)
         ∧ Forall (emitted nums v left right) out
         ∧ StronglySorted triplet_lt out
         ∧ (left < right → wrap (val nums left + val nums right + v) = 0 →
            out ≠ []).
Proof.
  revert left right result.
  induction fuel as [|fuel IH]; intros left right result Hl Hr Hf; [lia|].
  rewrite scan_S. destruct (Z.ltb_spec left right) as [Hlt|Hge].
  2:{ exists []. rewrite app_nil_r.
      split_and!; [done | constructor | constructor | lia]. }
  rewrite (bind_Ok _ _ _ (index_val nums left ltac:(lia))).
  rewrite (bind_Ok _ _ _ (index_val nums right ltac:(lia))).
  rewrite add_add.
  destruct (Z.eqb_spec (wrap (val nums left + val nums right + v)) 0)
    as [Hz|Hnz].
  - destruct (skip_left_spec (S fuel) left right)
      as (left' & Hsl & Hl' & Hv & Hne); [lia..|].
    destruct (skip_right_spec (S fuel) (left' + 1) right)
      as (right' & Hsr & Hr'); [lia..|].
    rewrite (bind_Ok _ _ _ Hsl), (bind_Ok _ _ _ Hsr).
    destruct (IH (left' + 1) (right' - 1)
                (result ++ [[v; val nums left; val nums right]]))
      as (out & -> & Hout & Hss & _); [lia..|].
    exists ([v; val nums left; val nums right] :: out).
    rewrite <- app_assoc. repeat split; try done.
    + constructor.
      * exists left, right. repeat split; try done; lia.
      * eapply Forall_impl; [exact Hout|].
        intros t. apply emitted_mono; lia.
    + constructor; [done|].
      eapply Forall_impl; [exact Hout|].
      intros t (l & r & ? & ? & ? & -> & _). right. split; [done|].
      change (val nums left < val nums l).
      assert (left' + 1 < right) as Hlt' by lia.
      specialize (Hne Hlt').
      pose proof (val_sorted nums left' (left' + 1) nums_sorted
                    ltac:(lia) ltac:(lia)).
      pose proof (val_sorted nums (left' + 1) l nums_sorted
                    ltac:(lia) ltac:(lia)).
      lia.
  - destruct (Z.ltb_spec (wrap (val nums left + val nums right + v)) 0).
    + destruct (IH (left + 1) right result) as (out & -> & Hout & Hss & _);
        [lia..|].
      exists out. repeat split; try done.
      eapply Forall_impl; [exact Hout|]. intros t. apply emitted_mono; lia.
    + destruct (IH left (right - 1) result) as (out & -> & Hout & Hss & _);
        [lia..|].
      exists out. repeat split; try done.
      eapply Forall_impl; [exact Hout|]. intros t. apply emitted_mono; lia.
Qed.

Lemma anchors_spec (fuel : nat) (i : Z) (result : list (list Z)) :
  0 <= i → Z.max 0 (len nums - 2 - i) < Z.of_nat fuel →
  ∃ out, anchors fuel nums (len nums) i result = Ok (result ++ out)
         ∧ Forall (emitted_from nums i) out
         ∧ StronglySorted triplet_lt out
         ∧ (i = 0 → 3 <= len nums → val nums 0 <= 0 →
            wrap (val nums 1 + val nums (len nums - 1) + val nums 0) = 0 →
            out ≠ []).
Proof.
  revert i result.
  induction fuel as [|fuel IH]; intros i result Hi Hf; [lia|].
  rewrite anchors_S. destruct (Z.ltb_spec i (len nums - 2)) as [Hlt|Hge].
  2:{ exists []. rewrite app_nil_r.
      split_and!; [done | constructor | constructor | lia]. }
  rewrite (bind_Ok _ _ _ (index_val nums i ltac:(lia))).
  destruct (Z.ltb_spec 0 (val nums i)) as [Hpos|Hv].
  { exists []. rewrite app_nil_r.
    split_and!; [done | constructor | constructor |].
    intros -> _ ?. lia. }
  assert (∃ skip : bool,
             (if 0 <? i
              then a ← index nums i; b ← index nums (i - 1); Ok (a =? b)
              else Ok false) = Ok skip
             ∧ (skip = true → i ≠ 0)
             ∧ (skip = false → i = 0 ∨ val nums (i - 1) < val nums i))
    as (skip & -> & Hskip1 & Hskip0).
  { destruct (Z.ltb_spec 0 i) as [Hi0|Hi0].
    - rewrite (bind_Ok _ _ _ (index_val nums i ltac:(lia))).
      rewrite (bind_Ok _ _ _ (index_val nums (i - 1) ltac:(lia))).
      eexists. split; [reflexivity|]. split; [lia|].
      intros Hne%Z.eqb_neq. right.
      pose proof (val_sorted nums (i - 1) i nums_sorted
                    ltac:(lia) ltac:(lia)). lia.
    - exists false. split_and!; [done | done | intros _; left; lia]. }
  cbn [mbind outcome_bind]. destruct skip.
  - destruct (IH (i + 1) result) as (out & -> & Hout & Hss & _); [lia..|].
    exists out. split_and!; [done | | done |].
    + eapply Forall_impl; [exact Hout|].
      intros t (j & ? & ? & ? & ?). exists j. split_and!; try done; lia.
    + intros ->. by destruct Hskip1.
  - destruct (scan_spec (S fuel) (val nums i) (i + 1) (len nums - 1) result)
      as (out1 & Hscan & Hout1 & Hss1 & Hne1); [lia..|].
    rewrite (bind_Ok _ _ _ Hscan).
    destruct (IH (i + 1) (result ++ out1)) as (out2 & -> & Hout2 & Hss2 & _);
      [lia..|].
    exists (out1 ++ out2). rewrite <- app_assoc. split_and!; [done | | |].
    + apply Forall_app. split.
      * eapply Forall_impl; [exact Hout1|].
        intros t Ht. exists i. split_and!; [lia | lia | by apply Hskip0 | done].
      * eapply Forall_impl; [exact Hout2|].
        intros t (j & ? & ? & ? & ?). exists j. split_and!; try done; lia.
    + apply StronglySorted_app_2; [|done..].
      intros t1 t2 Ht1 Ht2.
      rewrite Forall_forall in Hout1, Hout2.
      destruct (Hout1 _ Ht1) as (l1 & r1 & _ & _ & _ & -> & _).
      destruct (Hout2 _ Ht2)
        as (j & Hj & _ & Hprev & l2 & r2 & ? & ? & ? & -> & _).
      left. change (val nums i < val nums j).
      destruct Hprev as [->|Hprev]; [lia|].
      pose proof (val_sorted nums i (j - 1) nums_sorted
                    ltac:(lia) ltac:(lia)). lia.
    + intros -> Hn Hv0 Hw Hnil.
      apply app_eq_nil in Hnil as [-> _].
      apply Hne1; [lia| |done]. exact Hw.
Qed.

End loops.

(** [sort.Ints] leaves the slice sorted, with the same elements. *)
Lemma sort_Ints_sorted (nums : list Z) : StronglySorted Z.le (sort_Ints nums).
Proof. apply StronglySorted_merge_sort; apply _. Qed.

Lemma sort_Ints_perm (nums : list Z) : sort_Ints nums ≡ₚ nums.
Proof. apply merge_sort_Permutation. Qed.

(** A sorted rearrangement of a slice of ints is unique: whatever
    algorithm [sort.Ints] runs, this is its result. *)
Lemma sorted_perm_unique (nums sorted : list Z) :
  StronglySorted Z.le sorted → sorted ≡ₚ nums → sorted = sort_Ints nums.
Proof.
  intros Hs Hp. apply (StronglySorted_unique Z.le); [done| |].
  - apply sort_Ints_sorted.
  - by rewrite sort_Ints_perm.
Qed.

(** What [threeSum] returns, in terms of the sorted slice. *)
Lemma threeSum_spec (nums : list Z) :
  ∃ out, threeSum nums = (sort_Ints nums, Ok out)
         ∧ Forall (emitted_from (sort_Ints nums) 0) out
         ∧ StronglySorted triplet_lt out
         ∧ (3 <= len nums → val (sort_Ints nums) 0 <= 0 →
            wrap (val (sort_Ints nums) 1
                  + val (sort_Ints nums) (len nums - 1)
                  + val (sort_Ints nums) 0) = 0 →
            out ≠ []).
Proof.
  unfold threeSum.
  destruct (anchors_spec (sort_Ints nums) (sort_Ints_sorted nums)
              (S (length (sort_Ints nums))) 0 [])
    as (out & Heq & Hout & Hss & Hne); [lia | unfold len; lia |].
  exists out. rewrite Heq. split_and!; [done..|].
  assert (len (sort_Ints nums) = len nums) as Hlen.
  { unfold len. by rewrite (Permutation_length (sort_Ints_perm nums)). }
  rewrite Hlen in Hne. intros. by apply Hne.
Qed.

(** An appended triplet, read off the sorted slice. *)
Lemma emitted_from_inv (nums : list Z) (t : list Z) :
  emitted_from nums 0 t →
  ∃ j l r, 0 <= j ∧ j < l ∧ l < r ∧ r < len nums
           ∧ t = [val nums j; val nums l; val nums r]
           ∧ val nums j <= 0
           ∧ wrap (val nums j + val nums l + val nums r) = 0.
Proof.
  intros (j & ? & ? & _ & l & r & ? & ? & ? & -> & Hw).
  exists j, l, r. split_and!; try done; try lia.
  rewrite <- Hw. f_equal. lia.
Qed.

Lemma val_lookup (nums : list Z) (i : Z) :
  0 <= i < len nums → nums !! Z.to_nat i = Some (val nums i).
Proof. intros [? Hi]. apply list_lookup_lookup_total_lt. unfold len in Hi. lia. Qed.

Lemma val_elem_of (nums : list Z) (i : Z) :
  0 <= i < len nums → val nums i ∈ nums.
Proof. intros Hi. eapply list_elem_of_lookup_2, val_lookup, Hi. Qed.

Lemma go_sum_triplet (a b c : Z) : go_sum [a; b; c] = wrap (a + b + c).
Proof.
  unfold go_sum. cbn [foldl]. unfold add.
  rewrite (wrap_wrap_add (0 + a) b), wrap_wrap_add, Z.add_0_l. reflexivity.
Qed.

Lemma strongly_sorted_lookup {A : Type} (R : relation A) (l : list A)
    (i j : nat) (x y : A) :
  StronglySorted R l → (i < j)%nat → l !! i = Some x → l !! j = Some y → R x y.
Proof.
  intros Hs Hij Hx Hy. rewrite <- (take_drop j l) in Hs.
  eapply StronglySorted_app_1_elem_of; [exact Hs | |].
  - apply elem_of_take. eauto.
  - apply list_elem_of_lookup. exists 0%nat.
    rewrite lookup_drop. by rewrite Nat.add_0_r.
Qed.

(** Three positions of a list are three elements of a rearrangement. *)
Lemma lookup3_perm {A : Type} (l : list A) (i j k : nat) (a b c : A) :
  (i < j)%nat → (j < k)%nat →
  l !! i = Some a → l !! j = Some b → l !! k = Some c →
  ∃ rest, l ≡ₚ a :: b :: c :: rest.
Proof.
  intros Hij Hjk Ha Hb Hc.
  destruct j as [|j]; [lia|]. destruct k as [|[|k]]; [lia..|].
  pose proof (delete_Permutation l i a Ha) as H1.
  assert (delete i l !! j = Some b) as Hb'.
  { rewrite list_lookup_delete_ge by lia. done. }
  assert (delete i l !! S k = Some c) as Hc'.
  { rewrite list_lookup_delete_ge by lia. done. }
  pose proof (delete_Permutation _ j b Hb') as H2.
  assert (delete j (delete i l) !! k = Some c) as Hc''.
  { rewrite list_lookup_delete_ge by lia. done. }
  pose proof (delete_Permutation _ k c Hc'') as H3.
  eexists. rewrite H1, H2, H3. reflexivity.
Qed.

Lemma triplet_sum_perm (l1 l2 : list Z) :
  l1 ≡ₚ l2 → triplet_sum l1 = triplet_sum l2.
Proof.
  unfold triplet_sum.
  induction 1 as [|x l1 l2 _ IH|x y l|l1 l2 l3 _ IH1 _ IH2]; simpl; lia.
Qed.

Lemma triplet_lt_irrefl (t : list Z) : ¬ triplet_lt t t.
Proof. unfold triplet_lt. lia. Qed.

End ThreeSumFacts.

(** ** threeSum: the claims *)

Section threeSum_claims.
Import GoInt GoIntFacts ThreeSum TripletSpec ThreeSumFacts.

(** The value returned is what [threeSum_spec] describes. *)
Lemma threeSum_returns (nums : list Z) (res : list (list Z)) :
  snd (threeSum nums) = Ok res →
  Forall (emitted_from (sort_Ints nums) 0) res ∧ StronglySorted triplet_lt res.
Proof.
  destruct (threeSum_spec nums) as (out & -> & ? & ? & _).
  cbn [snd]. intros [= <-]. done.
Qed.

(** A returned triplet is three values of the input, in increasing order,
    the first one not positive, whose wrapped sum is zero. *)
Lemma returned_triplet (nums : list Z) (res : list (list Z)) (t : list Z) :
  snd (threeSum nums) = Ok res → t ∈ res →
  ∃ a b c, t = [a; b; c] ∧ a <= b ∧ b <= c ∧ a <= 0
           ∧ a ∈ nums ∧ b ∈ nums ∧ c ∈ nums
           ∧ wrap (a + b + c) = 0
           ∧ ∃ rest, nums ≡ₚ a :: b :: c :: rest.
Proof.
  intros [Hres _]%threeSum_returns Ht.
  rewrite Forall_forall in Hres.
  destruct (emitted_from_inv _ _ (Hres _ Ht))
    as (j & l & r & ? & ? & ? & ? & -> & ? & ?).
  pose proof (sort_Ints_sorted nums) as Hs.
  pose proof (sort_Ints_perm nums) as Hp.
  assert (∀ x, x ∈ sort_Ints nums → x ∈ nums) as Hin.
  { intros x Hx. by rewrite <- Hp. }
  eexists _, _, _. split_and!; [done | | | done | | | | done |].
  - apply val_sorted; [done | lia..].
  - apply val_sorted; [done | lia..].
  - apply Hin, val_elem_of. lia.
  - apply Hin, val_elem_of. lia.
  - apply Hin, val_elem_of. lia.
  - destruct (lookup3_perm (sort_Ints nums) (Z.to_nat j) (Z.to_nat l)
                (Z.to_nat r) (val (sort_Ints nums) j)
                (val (sort_Ints nums) l) (val (sort_Ints nums) r))
      as [rest Hrest]; [lia | lia | apply val_lookup; lia..|].
    exists rest. etrans; [symmetry; exact Hp | exact Hrest].
Qed.

(** Positive values below [2^61] have no zero sum, wrapped or not. *)
Lemma positive_no_zero_triplet (nums : list Z) :
  Forall (λ x, 0 < x < 2 ^ 61) nums →
  ¬ has_zero_triplet go_sum nums ∧ ¬ has_zero_triplet triplet_sum nums.
Proof.
  intros Hpos.
  assert (∀ a b c rest, nums ≡ₚ a :: b :: c :: rest →
            0 < a < 2 ^ 61 ∧ 0 < b < 2 ^ 61 ∧ 0 < c < 2 ^ 61) as Hin.
  { intros a b c rest Hp. rewrite Hp in Hpos.
    apply Forall_cons in Hpos as [? Hpos].
    apply Forall_cons in Hpos as [? Hpos].
    apply Forall_cons in Hpos as [? _]. done. }
  split; intros (a & b & c & rest & Hp & Hsum);
    destruct (Hin _ _ _ _ Hp) as (? & ? & ?).
  - rewrite go_sum_triplet in Hsum.
    apply wrap_zero_small in Hsum; lia.
  - unfold triplet_sum in Hsum. simpl in Hsum. lia.
Qed.

Lemma overflow_input_no_zero_triplet :
  ¬ has_zero_triplet triplet_sum overflow_input.
Proof.
  intros (a & b & c & rest & Hp & Hsum).
  pose proof (Permutation_length Hp) as Hlen.
  destruct rest; [|discriminate].
  apply triplet_sum_perm in Hp. rewrite Hsum in Hp. vm_compute in Hp. done.
Qed.

(** C1, as amended.  Every triplet returned by [threeSum] has three
    values whose sum is zero as Go computes it, in 64-bit wrap-around
    arithmetic.  As an integer the sum is [0] or [-2^64], and it is exactly
    [0] when no input value is below [-2^62]. *)
Theorem threeSum_triplets_sum_zero (nums : list Z) (res : list (list Z))
    (t : list Z) :
  Forall is_int nums → snd (threeSum nums) = Ok res → t ∈ res →
  length t = 3%nat
  ∧ go_sum t = 0
  ∧ (triplet_sum t = 0 ∨ triplet_sum t = - 2 ^ 64)
  ∧ (Forall (λ x, - 2 ^ 62 <= x) nums → triplet_sum t = 0).
Proof.
  intros Hint Hres Ht.
  destruct (returned_triplet nums res t Hres Ht)
    as (a & b & c & -> & ? & ? & ? & Ha & Hb & Hc & Hw & _).
  rewrite Forall_forall in Hint.
  pose proof (Hint _ Ha) as Ha'. pose proof (Hint _ Hb) as Hb'.
  pose proof (Hint _ Hc) as Hc'. unfold is_int, min_int, max_int in *.
  rewrite go_sum_triplet. unfold triplet_sum. cbn [foldr length].
  rewrite Z.add_0_r, Z.add_assoc.
  split_and!; [done | done | |].
  - apply wrap_zero in Hw as [k Hk]. rewrite Hk.
    assert (k = 0 ∨ k = -1) as [-> | ->] by lia; lia.
  - intros Hlow. rewrite Forall_forall in Hlow.
    pose proof (Hlow _ Ha). pose proof (Hlow _ Hb). pose proof (Hlow _ Hc).
    apply wrap_zero_small; [lia | done].
Qed.

Lemma threeSum_triplets_sum_zero_witness :
  go_sum [-1; -1; 2] = 0 ∧ triplet_sum [-1; -1; 2] = 0.
Proof.
  destruct (threeSum_triplets_sum_zero [-1; 0; 1; 2; -1; -4]
              [[-1; -1; 2]; [-1; 0; 1]] [-1; -1; 2])
    as (_ & Hgo & _ & Hsum).
  - repeat constructor; unfold is_int, min_int, max_int; lia.
  - vm_compute. reflexivity.
  - apply list_elem_of_here.
  - split; [exact Hgo|]. apply Hsum. repeat constructor; lia.
Defined.

(** C1, as stated, fails: on [-2^63, -2^63, 0] the triplet returned has
    the integer sum [-2^64]. *)
Lemma threeSum_triplet_sum_overflows :
  Forall is_int overflow_input
  ∧ ∃ res t, snd (threeSum overflow_input) = Ok res ∧ t ∈ res
             ∧ triplet_sum t ≠ 0.
Proof.
  split.
  - repeat constructor; unfold is_int, min_int, max_int; lia.
  - exists [overflow_input], overflow_input. split_and!.
    + vm_compute. reflexivity.
    + apply list_elem_of_here.
    + vm_compute. discriminate.
Qed.

(** C2.  No two triplets returned by [threeSum], at two different places
    of the result, hold the same values up to their order. *)
Theorem threeSum_no_duplicate_triplets (nums : list Z)
    (res : list (list Z)) (i j : nat) (t1 t2 : list Z) :
  snd (threeSum nums) = Ok res →
  res !! i = Some t1 → res !! j = Some t2 → i ≠ j →
  ¬ t1 ≡ₚ t2.
Proof.
  intros Hres H1 H2 Hij Hp.
  assert (t1 = t2) as <-.
  { destruct (returned_triplet nums res t1 Hres)
      as (a1 & b1 & c1 & -> & ? & ? & _); [by eapply list_elem_of_lookup_2|].
    destruct (returned_triplet nums res t2 Hres)
      as (a2 & b2 & c2 & -> & ? & ? & _); [by eapply list_elem_of_lookup_2|].
    apply (StronglySorted_unique Z.le); [| | done].
    - repeat constructor; lia.
    - repeat constructor; lia. }
  apply threeSum_returns in Hres as [_ Hss].
  apply (triplet_lt_irrefl t1).
  destruct (decide (i < j)%nat).
  - by apply (strongly_sorted_lookup _ res i j).
  - apply (strongly_sorted_lookup _ res j i); [done | lia | done..].
Qed.

Lemma threeSum_no_duplicate_triplets_witness : ¬ [-1; -1; 2] ≡ₚ [-1; 0; 1].
Proof.
  apply (threeSum_no_duplicate_triplets [-1; 0; 1; 2; -1; -4]
           [[-1; -1; 2]; [-1; 0; 1]] 0 1).
  - vm_compute. reflexivity.
  - reflexivity.
  - reflexivity.
  - lia.
Defined.

(** C7, as amended.  [threeSum] always returns, without a panic.  It
    returns the empty result on fewer than three elements, on an input
    with no three elements whose sum is zero in 64-bit wrap-around
    arithmetic, and on an input with no value below [-2^62] and no three
    elements whose integer sum is zero. *)
Theorem threeSum_empty_result (nums : list Z) :
  (∃ res, snd (threeSum nums) = Ok res)
  ∧ ((length nums < 3)%nat → snd (threeSum nums) = Ok [])
  ∧ (¬ has_zero_triplet go_sum nums → snd (threeSum nums) = Ok [])
  ∧ (Forall (λ x, - 2 ^ 62 <= x <= max_int) nums →
     ¬ has_zero_triplet triplet_sum nums → snd (threeSum nums) = Ok []).
Proof.
  destruct (threeSum_spec nums) as (out & Heq & _).
  assert (snd (threeSum nums) = Ok out) as Hres by (by rewrite Heq).
  assert (¬ has_zero_triplet go_sum nums → out = []) as Hgo.
  { intros Hno. destruct out as [|t out]; [done|]. destruct Hno.
    destruct (returned_triplet nums _ t Hres)
      as (a & b & c & _ & _ & _ & _ & _ & _ & _ & Hw & rest & Hp);
      [apply list_elem_of_here|].
    exists a, b, c, rest. by rewrite go_sum_triplet. }
  split_and!.
  - by exists out.
  - intros Hlen. rewrite Hres. f_equal. apply Hgo.
    intros (a & b & c & rest & Hp & _).
    apply Permutation_length in Hp. simpl in Hp. lia.
  - intros Hno. rewrite Hres. f_equal. by apply Hgo.
  - intros Hlow Hno. rewrite Hres. f_equal.
    destruct out as [|t out]; [done|]. destruct Hno.
    destruct (returned_triplet nums _ t Hres)
      as (a & b & c & _ & _ & _ & ? & Ha & Hb & Hc & Hw & rest & Hp);
      [apply list_elem_of_here|].
    exists a, b, c, rest. split; [done|].
    rewrite Forall_forall in Hlow. unfold max_int in Hlow.
    pose proof (Hlow _ Ha). pose proof (Hlow _ Hb). pose proof (Hlow _ Hc).
    unfold triplet_sum. cbn [foldr]. rewrite Z.add_0_r, Z.add_assoc.
    apply wrap_zero_small; [lia | done].
Qed.

Lemma threeSum_empty_result_witness :
  snd (threeSum [1; 2]) = Ok []
  ∧ snd (threeSum [1; 2; 3; 4]) = Ok []
  ∧ snd (threeSum [4; 3; 2; 1]) = Ok [].
Proof.
  destruct (threeSum_empty_result [1; 2]) as (_ & Hshort & _ & _).
  destruct (threeSum_empty_result [1; 2; 3; 4]) as (_ & _ & Hgo & _).
  destruct (threeSum_empty_result [4; 3; 2; 1]) as (_ & _ & _ & Hexact).
  split_and!.
  - apply Hshort. simpl. lia.
  - apply Hgo. apply positive_no_zero_triplet. repeat constructor; lia.
  - apply Hexact.
    + repeat constructor; unfold max_int; lia.
    + apply positive_no_zero_triplet. repeat constructor; lia.
Defined.

(** C7, as stated, fails: [-2^63, -2^63, 0] has no three elements whose
    sum is zero, and the result is not empty. *)
Lemma threeSum_no_triplet_not_empty :
  ¬ has_zero_triplet triplet_sum overflow_input
  ∧ snd (threeSum overflow_input) ≠ Ok [].
Proof.
  split; [apply overflow_input_no_zero_triplet|].
  vm_compute. discriminate.
Qed.

(** C8.  [threeSum([-1,0,1,2,-1,-4])] is [[-1,-1,2], [-1,0,1]],
    [threeSum([])] is empty, [threeSum([0,0,0])] is [[0,0,0]], and so is
    the result on [n >= 3] zeros. *)
Theorem threeSum_examples (n : nat) :
  snd (threeSum [-1; 0; 1; 2; -1; -4]) = Ok [[-1; -1; 2]; [-1; 0; 1]]
  ∧ snd (threeSum []) = Ok []
  ∧ snd (threeSum [0; 0; 0]) = Ok [[0; 0; 0]]
  ∧ ((3 <= n)%nat → snd (threeSum (replicate n 0)) = Ok [[0; 0; 0]]).
Proof.
  split_and!; [vm_compute; reflexivity..|].
  intros Hn.
  assert (sort_Ints (replicate n 0) = replicate n 0) as Hsort.
  { symmetry. apply replicate_Permutation. symmetry. apply sort_Ints_perm. }
  assert (∀ i, 0 <= i < Z.of_nat n → val (replicate n 0) i = 0) as Hval.
  { intros i Hi. unfold val. apply lookup_total_replicate_2. lia. }
  assert (len (replicate n 0) = Z.of_nat n) as Hlen.
  { unfold len. by rewrite length_replicate. }
  destruct (threeSum_spec (replicate n 0)) as (out & -> & Hout & Hss & Hne).
  cbn [snd]. f_equal. rewrite Hsort, Hlen in *.
  assert (Forall (λ t, t = [0; 0; 0]) out) as Hzero.
  { eapply Forall_impl; [exact Hout|]. intros t Ht.
    destruct (emitted_from_inv _ _ Ht) as (j & l & r & ? & ? & ? & ? & -> & _).
    rewrite Hlen in *. rewrite !Hval by lia. done. }
  destruct out as [|t1 [|t2 out]].
  - destruct Hne; [lia | rewrite Hval; lia | | done].
    rewrite !Hval by lia. vm_compute. reflexivity.
  - apply Forall_cons in Hzero as [-> _]. done.
  - apply Forall_cons in Hzero as [-> Hzero].
    apply Forall_cons in Hzero as [-> _].
    apply StronglySorted_cons in Hss as [Hlt _].
    apply Forall_cons in Hlt as [Hlt _].
    by apply triplet_lt_irrefl in Hlt.
Qed.

Lemma threeSum_examples_witness :
  snd (threeSum [0; 0; 0; 0; 0]) = Ok [[0; 0; 0]].
Proof. apply (threeSum_examples 5). lia. Defined.

(** C10.  After [threeSum] the caller's slice holds the values it held
    before, in increasing order; the slice is the only state passed back
    to the caller besides the result. *)
Theorem threeSum_sorts_callers_slice (nums : list Z) :
  fst (threeSum nums) ≡ₚ nums
  ∧ StronglySorted Z.le (fst (threeSum nums))
  ∧ (∀ sorted, StronglySorted Z.le sorted → sorted ≡ₚ nums →
       fst (threeSum nums) = sorted).
Proof.
  unfold threeSum. cbn [fst]. split_and!.
  - apply sort_Ints_perm.
  - apply sort_Ints_sorted.
  - intros sorted Hs Hp. symmetry. by apply sorted_perm_unique.
Qed.

Lemma threeSum_sorts_callers_slice_witness :
  fst (threeSum [-1; 0; 1; 2; -1; -4]) = [-4; -1; -1; 0; 1; 2].
Proof.
  apply (threeSum_sorts_callers_slice [-1; 0; 1; 2; -1; -4]).
  - repeat constructor; lia.
  - exact (sort_Ints_perm [-1; 0; 1; 2; -1; -4]).
Defined.

End threeSum_claims.

(** ** isPalindrome *)

Module PalindromeFacts.
Import Palindrome.

(** One turn of the loop. *)
Lemma loop_S fuel s left right :
  loop (S fuel) s left right =
    if left <? right then
      a ← index s left;
      b ← index s right;
      if negb (Byte.eqb a b) then Ok false
      else loop fuel s (left + 1) (right - 1)
    else Ok true.
Proof. reflexivity. Qed.

Lemma nonempty_snoc {A : Type} (l : list A) :
  l ≠ [] → ∃ l' x, l = l' ++ [x].
Proof.
  induction l as [|x l _] using rev_ind; [done|]. intros _. by exists l, x.
Qed.

(** With [left] and [right] at the two ends of the middle part [m] of the
    string, the loop decides whether [m] reads the same backwards. *)
Lemma loop_spec (fuel : nat) (p m q : list byte) :
  (length m < fuel)%nat →
  loop fuel (p ++ m ++ q) (len p) (len p + len m - 1)
  = Ok (bool_decide (m = reverse m)).
Proof.
  revert p m q. induction fuel as [|fuel IH]; intros p m q Hf; [lia|].
  rewrite loop_S. destruct m as [|a m].
  { destruct (Z.ltb_spec (len p) (len p + len (@nil byte) - 1)) as [Hlt|_].
    - unfold len in Hlt. simpl in Hlt. lia.
    - by rewrite bool_decide_eq_true_2. }
  destruct (decide (m = [])) as [->|Hm].
  { destruct (Z.ltb_spec (len p) (len p + len [a] - 1)) as [Hlt|_].
    - unfold len in Hlt. simpl in Hlt. lia.
    - by rewrite bool_decide_eq_true_2. }
  destruct (nonempty_snoc m Hm) as (m' & b & ->).
  simpl in Hf. rewrite length_app in Hf. simpl in Hf.
  pose proof (len_nonneg p). pose proof (len_nonneg m').
  rewrite len_cons, len_app, len_cons.
  change (len (@nil byte)) with 0.
  destruct (Z.ltb_spec (len p) (len p + (1 + (len m' + (1 + 0))) - 1))
    as [_|Hge]; [|lia].
  assert (index (p ++ (a :: m' ++ [b]) ++ q) (len p) = Ok a) as Ha.
  { apply index_lookup; [lia|]. unfold len. rewrite Nat2Z.id.
    by rewrite lookup_app_r, Nat.sub_diag by lia. }
  assert (index (p ++ (a :: m' ++ [b]) ++ q)
            (len p + (1 + (len m' + (1 + 0))) - 1) = Ok b) as Hb.
  { apply index_lookup; [lia|]. unfold len.
    replace (Z.to_nat (Z.of_nat (length p)
                       + (1 + (Z.of_nat (length m') + (1 + 0))) - 1))
      with (length p + S (length m'))%nat by lia.
    rewrite lookup_app_r by lia.
    replace (length p + S (length m') - length p)%nat
      with (S (length m')) by lia.
    simpl. rewrite <- app_assoc, lookup_app_r by lia.
    by rewrite Nat.sub_diag. }
  rewrite (bind_Ok _ _ _ Ha), (bind_Ok _ _ _ Hb).
  rewrite reverse_cons, reverse_app, reverse_singleton. simpl.
  destruct (Byte.eqb a b) eqn:Hab; simpl.
  - apply Byte.byte_dec_bl in Hab as <-.
    replace (p ++ a :: (m' ++ [a]) ++ q) with ((p ++ [a]) ++ m' ++ [a] ++ q)
      by (by rewrite <- !app_assoc).
    replace (len p + 1) with (len (p ++ [a]))
      by (rewrite len_app, len_cons; change (len (@nil byte)) with 0; lia).
    replace (len p + (1 + (len m' + (1 + 0))) - 1 - 1)
      with (len (p ++ [a]) + len m' - 1)
      by (rewrite len_app, len_cons; change (len (@nil byte)) with 0; lia).
    rewrite IH by lia. f_equal. apply bool_decide_ext. split.
    + intros <-. done.
    + intros [= Heq]. by apply (inj (.++ [a])) in Heq.
  - f_equal. symmetry. apply bool_decide_eq_false. intros [= -> _].
    by apply Byte.eqb_false in Hab.
Qed.

End PalindromeFacts.

Module GoStringFacts.
Import GoString.

Lemma byte_of_Z_to_N (z : Z) :
  0 <= z < 256 → Byte.to_N (byte_of_Z z) = Z.to_N z.
Proof.
  intros Hz. unfold byte_of_Z. rewrite Z.mod_small by done.
  destruct (Byte.of_N (Z.to_N z)) as [b|] eqn:Hb.
  - simpl. by apply Byte.to_of_N.
  - apply Byte.of_N_None_iff in Hb. lia.
Qed.

Lemma byte_of_Z_inj (x y : Z) :
  is_ascii x → is_ascii y → byte_of_Z x = byte_of_Z y → x = y.
Proof.
  unfold is_ascii. intros Hx Hy Heq. apply (f_equal Byte.to_N) in Heq.
  rewrite !byte_of_Z_to_N in Heq by lia. lia.
Qed.

(** A string of one-byte characters has one byte for each of them. *)
Lemma utf8_encode_ascii (chars : list Z) :
  Forall is_ascii chars → utf8_encode chars = byte_of_Z <$> chars.
Proof.
  induction 1 as [|r chars Hr _ IH]; [done|].
  cbn [utf8_encode foldr fmap list_fmap]. fold (utf8_encode chars).
  rewrite IH. unfold utf8_encode_rune, is_ascii in *.
  destruct (Z.ltb_spec r 0); [lia|].
  destruct (Z.ltb_spec 0x10FFFF r); [lia|].
  destruct (Z.leb_spec 0xD800 r); [lia|]. cbn [orb andb].
  destruct (Z.ltb_spec r 0x80); [done|lia].
Qed.

Lemma fmap_byte_of_Z_inj (l1 l2 : list Z) :
  Forall is_ascii l1 → Forall is_ascii l2 →
  byte_of_Z <$> l1 = byte_of_Z <$> l2 → l1 = l2.
Proof.
  intros H1. revert l2. induction H1 as [|x l1 Hx _ IH]; intros l2 H2 Heq.
  - by destruct l2.
  - destruct H2 as [|y l2 Hy H2]; [done|]. injection Heq as Hxy Heq.
    f_equal; [by apply byte_of_Z_inj | by apply IH].
Qed.

End GoStringFacts.

Section isPalindrome_claims.
Import Palindrome PalindromeFacts GoString GoStringFacts.

(** C5, as amended.  [isPalindrome(s)] returns, and returns [true] exactly
    when the bytes of [s] are the same read backwards, by raw equality of
    bytes; so it does on the empty string, on "racecar" (true) and on "abab"
    (false).  For a string of one-byte (ASCII) characters this is to say
    that its characters are the same read backwards. *)
Theorem isPalindrome_correct (s : list byte) (chars : list Z) :
  isPalindrome s = Ok (bool_decide (s = reverse s))
  ∧ isPalindrome [] = Ok true
  ∧ isPalindrome (list_byte_of_string "racecar") = Ok true
  ∧ isPalindrome (list_byte_of_string "abab") = Ok false
  ∧ (Forall is_ascii chars →
     isPalindrome (utf8_encode chars)
     = Ok (bool_decide (chars = reverse chars))).
Proof.
  assert (∀ s, isPalindrome s = Ok (bool_decide (s = reverse s))) as Hbytes.
  { intros s'. unfold isPalindrome.
    pose proof (loop_spec (S (length s')) [] s' []) as H.
    rewrite app_nil_r in H. simpl in H. apply H. lia. }
  split_and!; [apply Hbytes | vm_compute; reflexivity..|].
  intros Hascii. rewrite Hbytes, utf8_encode_ascii by done. f_equal.
  apply bool_decide_ext. rewrite <- fmap_reverse. split.
  - apply fmap_byte_of_Z_inj; [done|]. by apply Forall_reverse.
  - by intros <-.
Qed.

Lemma isPalindrome_correct_witness :
  isPalindrome (utf8_encode [0x6C; 0x65; 0x76; 0x65; 0x6C]) = Ok true.
Proof.
  apply (isPalindrome_correct [] [0x6C; 0x65; 0x76; 0x65; 0x6C]).
  repeat constructor; unfold is_ascii; lia.
Defined.

(** C5, as stated, fails: the string of the one character U+00E9 has the
    two bytes C3 A9; its characters are the same read backwards, and
    [isPalindrome] returns [false]. *)
Lemma isPalindrome_not_by_character :
  [0xE9] = reverse [0xE9]
  ∧ utf8_encode [0xE9] = [Byte.xc3; Byte.xa9]
  ∧ isPalindrome (utf8_encode [0xE9]) = Ok false.
Proof. split_and!; vm_compute; reflexivity. Qed.

End isPalindrome_claims.

(** ** removeNthFromEnd: chains in the heap *)

Module LinkedListFacts.
Import LinkedList ListSpec.

Lemma is_list_ptr (h : heap) (p : ptr) (nodes : list (loc * Z)) :
  is_list h p nodes → p = node_ptr nodes 0.
Proof. destruct nodes as [|[l v] nodes]; simpl; [done|]. by intros [-> _]. Qed.

Lemma is_list_drop (h : heap) (p : ptr) (nodes : list (loc * Z)) (i : nat) :
  is_list h p nodes → is_list h (node_ptr nodes i) (drop i nodes).
Proof.
  revert p nodes. induction i as [|i IH]; intros p nodes Hl.
  - rewrite drop_0. by rewrite <- (is_list_ptr h p nodes Hl).
  - destruct nodes as [|[l v] nodes]; [done|].
    destruct Hl as (_ & q & _ & Hq). exact (IH q nodes Hq).
Qed.

Lemma is_list_lookup (h : heap) (p : ptr) (nodes : list (loc * Z))
    (i : nat) (l : loc) (v : Z) :
  is_list h p nodes → nodes !! i = Some (l, v) →
  h !! l = Some (mkListNode v (node_ptr nodes (S i))).
Proof.
  revert p nodes. induction i as [|i IH]; intros p nodes Hl Hi.
  - destruct nodes as [|[l' v'] nodes]; [done|]. simplify_eq/=.
    destruct Hl as (_ & q & -> & Hq). by rewrite (is_list_ptr h q nodes Hq).
  - destruct nodes as [|[l' v'] nodes]; [done|].
    destruct Hl as (_ & q & _ & Hq). exact (IH q nodes Hq Hi).
Qed.

(** Reading [next] at node [i] of a chain gives node [i + 1]. *)
Lemma get_next_node (h : heap) (p : ptr) (nodes : list (loc * Z)) (i : nat) :
  is_list h p nodes → (i < length nodes)%nat →
  get_next h (node_ptr nodes i) = Ok (node_ptr nodes (S i)).
Proof.
  intros Hl Hi. destruct (lookup_lt_is_Some_2 nodes i Hi) as [[l v] Hlv].
  unfold node_ptr at 1. rewrite Hlv. simpl.
  by rewrite (is_list_lookup h p nodes i l v Hl Hlv).
Qed.

Lemma node_ptr_is_Some (nodes : list (loc * Z)) (i : nat) :
  (i < length nodes)%nat → is_Some (node_ptr nodes i).
Proof.
  intros Hi. destruct (lookup_lt_is_Some_2 nodes i Hi) as [x Hx].
  unfold node_ptr. rewrite Hx. by eexists.
Qed.

Lemma node_ptr_None (nodes : list (loc * Z)) (i : nat) :
  (length nodes <= i)%nat → node_ptr nodes i = None.
Proof. intros Hi. unfold node_ptr. by rewrite lookup_ge_None_2. Qed.

(** From one pointer the heap holds one chain. *)
Lemma is_list_functional (h : heap) (p : ptr) (ns1 ns2 : list (loc * Z)) :
  is_list h p ns1 → is_list h p ns2 → ns1 = ns2.
Proof.
  revert p ns2. induction ns1 as [|[l1 v1] ns1 IH]; intros p ns2 H1 H2.
  - destruct ns2 as [|[l2 v2] ns2]; [done|]. simpl in *.
    destruct H2 as [? _]. congruence.
  - destruct ns2 as [|[l2 v2] ns2]; simpl in *.
    + destruct H1 as [? _]. congruence.
    + destruct H1 as (-> & q1 & Hq1 & H1). destruct H2 as ([= <-] & q2 & Hq2 & H2).
      rewrite Hq1 in Hq2. simplify_eq. f_equal. by eapply IH.
Qed.

(** A chain that reaches [nil] goes through no node twice. *)
Lemma is_list_NoDup (h : heap) (p : ptr) (nodes : list (loc * Z)) :
  is_list h p nodes → NoDup nodes.*1.
Proof.
  revert p. induction nodes as [|[l v] nodes IH]; intros p Hl; simpl.
  { constructor. }
  pose proof Hl as (_ & q & Hq & Hl').
  constructor; [|by eapply IH].
  intros Hin. apply list_elem_of_lookup in Hin as [i Hi].
  rewrite list_lookup_fmap in Hi.
  destruct (nodes !! i) as [[l' v']|] eqn:Hi'; [|done]. simplify_eq/=.
  pose proof (is_list_lookup h p ((l, v) :: nodes) (S i) l v' Hl Hi') as Hq'.
  rewrite Hq in Hq'. injection Hq' as <- Hptr.
  pose proof (is_list_ptr h q nodes Hl') as ->.
  change (node_ptr ((l, v) :: nodes) (S (S i))) with (node_ptr nodes (S i))
    in Hptr.
  pose proof (is_list_drop h _ nodes (S i) Hl') as Hd.
  rewrite <- Hptr in Hd.
  pose proof (is_list_functional _ _ _ _ Hl' Hd) as Heq.
  apply (f_equal length) in Heq. rewrite length_drop in Heq.
  apply lookup_lt_Some in Hi'. lia.
Qed.

Lemma is_list_dom (h : heap) (p : ptr) (nodes : list (loc * Z)) (l : loc) :
  is_list h p nodes → l ∈ nodes.*1 → l ∈ dom h.
Proof.
  intros Hl Hin. apply list_elem_of_lookup in Hin as [i Hi].
  rewrite list_lookup_fmap in Hi.
  destruct (nodes !! i) as [[l' v']|] eqn:Hi'; [|done]. simplify_eq/=.
  apply elem_of_dom. eexists. by eapply is_list_lookup.
Qed.

(** Writing a cell outside a chain leaves the chain as it is. *)
Lemma is_list_frame (h : heap) (p : ptr) (nodes : list (loc * Z))
    (l : loc) (nd : ListNode) :
  is_list h p nodes → l ∉ nodes.*1 → is_list (<[l := nd]> h) p nodes.
Proof.
  revert p. induction nodes as [|[l' v'] nodes IH]; intros p Hl Hnot; [done|].
  destruct Hl as (-> & q & Hq & Hl). simpl in Hnot.
  apply not_elem_of_cons in Hnot as [Hne Hnot].
  split; [done|]. exists q. split; [|by apply IH].
  by rewrite lookup_insert_ne.
Qed.

Lemma is_list_weaken (h h' : heap) (p : ptr) (nodes : list (loc * Z)) :
  is_list h p nodes → h ⊆ h' → is_list h' p nodes.
Proof.
  revert p. induction nodes as [|[l v] nodes IH]; intros p Hl Hsub; [done|].
  destruct Hl as (-> & q & Hq & Hl).
  split; [done|]. exists q. split; [|by apply IH].
  by eapply lookup_weaken.
Qed.

(** [leftPtr.next = leftPtr.next.next] takes the node after [l1] out of
    the chain. *)
Lemma is_list_unlink (h : heap) (p : ptr) (pre post : list (loc * Z))
    (l1 l2 : loc) (v1 v2 : Z) :
  is_list h p (pre ++ (l1, v1) :: (l2, v2) :: post) →
  is_list (<[l1 := mkListNode v1 (node_ptr post 0)]> h) p
          (pre ++ (l1, v1) :: post).
Proof.
  intros Hl. pose proof (is_list_NoDup _ _ _ Hl) as Hnd.
  revert p Hl Hnd. induction pre as [|[l v] pre IH]; intros p Hl Hnd.
  - simpl in *. destruct Hl as (-> & q & Hq & -> & q' & Hq' & Hl).
    split; [done|]. exists (node_ptr post 0). split.
    + by rewrite lookup_insert_eq.
    + rewrite <- (is_list_ptr _ _ _ Hl). apply is_list_frame; [done|].
      apply NoDup_cons in Hnd as [Hnd _].
      by apply not_elem_of_cons in Hnd as [_ ?].
  - simpl in *. destruct Hl as (-> & q & Hq & Hl).
    apply NoDup_cons in Hnd as [Hnot Hnd].
    split; [done|]. exists q. split; [|by apply IH].
    rewrite lookup_insert_ne; [done|].
    intros ->. apply Hnot. rewrite fmap_app.
    apply elem_of_app. right. simpl. left.
Qed.

(** One turn of each loop. *)
Lemma advance_S fuel h rightPtr i n :
  advance (S fuel) h rightPtr i n =
    if i <? n then
      nx ← get_next h rightPtr;
      match nx with
      | None => Ok None
      | Some _ =>
          rightPtr ← get_next h rightPtr;
          advance fuel h rightPtr (i + 1) n
      end
    else Ok (Some rightPtr).
Proof. reflexivity. Qed.

Lemma follow_S fuel h rightPtr leftPtr :
  follow (S fuel) h rightPtr leftPtr =
    nx ← get_next h rightPtr;
    match nx with
    | Some _ =>
        rightPtr ← get_next h rightPtr;
        leftPtr ← get_next h leftPtr;
        follow fuel h rightPtr leftPtr
    | None => Ok (rightPtr, leftPtr)
    end.
Proof. reflexivity. Qed.

Section chain.
Variables (h : heap) (p0 : ptr) (ch : list (loc * Z)).
Hypothesis chain : is_list h p0 ch.

(** The first loop, entered with [rightPtr] at node [k] and [i = k]:
    it ends at node [n] when the chain has one, and returns from the
    function otherwise. *)
Lemma advance_spec (fuel k : nat) (n : Z) :
  (k < length ch)%nat → Z.of_nat k <= n →
  Z.min n (len ch - 1) - Z.of_nat k < Z.of_nat fuel →
  advance fuel h (node_ptr ch k) (Z.of_nat k) n
  = Ok (if n <? len ch then Some (node_ptr ch (Z.to_nat n)) else None).
Proof.
  revert k. induction fuel as [|fuel IH]; intros k Hk Hkn Hf.
  { unfold len in *. lia. }
  rewrite advance_S. unfold len in *.
  destruct (Z.ltb_spec (Z.of_nat k) n) as [Hlt|Hge].
  - rewrite (bind_Ok _ _ _ (get_next_node h p0 ch k chain Hk)).
    destruct (node_ptr ch (S k)) as [l|] eqn:Hnext.
    + assert (S k < length ch)%nat as Hk'.
      { destruct (decide (S k < length ch)%nat); [done|].
        rewrite node_ptr_None in Hnext by lia. done. }
      rewrite (bind_Ok _ _ _ (get_next_node h p0 ch k chain Hk)).
      replace (Z.of_nat k + 1) with (Z.of_nat (S k)) by lia.
      apply IH; lia.
    + assert (length ch <= S k)%nat as Hk'.
      { destruct (decide (S k < length ch)%nat) as [Hlt'|]; [|lia].
        destruct (node_ptr_is_Some ch (S k) Hlt') as [? Hs]. congruence. }
      destruct (Z.ltb_spec n (Z.of_nat (length ch))); [lia|done].
  - destruct (Z.ltb_spec n (Z.of_nat (length ch))); [|lia].
    do 3 f_equal. lia.
Qed.

(** The second loop, entered with [rightPtr] at node [r] and [leftPtr]
    at node [l]: both move on until [rightPtr] is at the last node. *)
Lemma follow_spec (fuel r l : nat) :
  (r < length ch)%nat → (l <= r)%nat → (length ch - 1 - r < fuel)%nat →
  follow fuel h (node_ptr ch r) (node_ptr ch l)
  = Ok (node_ptr ch (length ch - 1), node_ptr ch (l + (length ch - 1 - r))).
Proof.
  revert r l. induction fuel as [|fuel IH]; intros r l Hr Hl Hf; [lia|].
  rewrite follow_S.
  rewrite (bind_Ok _ _ _ (get_next_node h p0 ch r chain Hr)).
  destruct (node_ptr ch (S r)) as [x|] eqn:Hnext.
  - assert (S r < length ch)%nat as Hr'.
    { destruct (decide (S r < length ch)%nat); [done|].
      rewrite node_ptr_None in Hnext by lia. done. }
    rewrite (bind_Ok _ _ _ (get_next_node h p0 ch r chain Hr)).
    rewrite (bind_Ok _ _ _ (get_next_node h p0 ch l chain ltac:(lia))).
    rewrite IH by lia. do 3 f_equal. lia.
  - assert (length ch <= S r)%nat as Hr'.
    { destruct (decide (S r < length ch)%nat) as [Hlt'|]; [|lia].
      destruct (node_ptr_is_Some ch (S r) Hlt') as [? Hs]. congruence. }
    do 3 f_equal; lia.
Qed.

End chain.

(** The chain with the sentinel in front, after [&ListNode{next: head}]. *)
Lemma sentinel_chain (h : heap) (head : ptr) (nodes : list (loc * Z)) :
  is_list h head nodes →
  let s := fresh (dom h) in
  let h1 := <[s := mkListNode 0 head]> h in
  h !! s = None ∧ is_list h1 head nodes ∧ is_list h1 (Some s) ((s, 0) :: nodes).
Proof.
  intros Hl s h1.
  assert (h !! s = None) as Hs by apply not_elem_of_dom, is_fresh.
  assert (is_list h1 head nodes) as Hl1.
  { apply is_list_frame; [done|]. intros Hin.
    apply (is_list_dom h head nodes s Hl) in Hin. by apply is_fresh in Hin. }
  split_and!; [done..|]. split; [done|]. exists head. split; [|done].
  apply lookup_insert_eq.
Qed.

(** With [1 <= n <= L] the node at index [L - n] leaves the chain. *)
Lemma remove_in_range (fuel : nat) (h : heap) (head : ptr)
    (nodes : list (loc * Z)) (n : Z) :
  is_list h head nodes → 1 <= n <= len nodes → (length nodes < fuel)%nat →
  ∃ h' head', removeNthFromEnd fuel h head n = Ok (h', head')
              ∧ is_list h' head' (delete (Z.to_nat (len nodes - n)) nodes).
Proof.
  intros Hl Hn Hf. unfold removeNthFromEnd, new_node.
  destruct (sentinel_chain h head nodes Hl) as (Hs & Hl1 & Hch).
  set (s := fresh (dom h)) in *.
  set (h1 := <[s := mkListNode 0 head]> h) in *.
  set (ch := (s, 0) :: nodes) in *.
  assert (len ch = 1 + len nodes) as Hlen by apply len_cons.
  assert (length ch = S (length nodes)) as Hlength by done.
  unfold len in *.
  assert (head ≠ None) as Hhead.
  { destruct nodes as [|[l v] nodes]; [simpl in Hn; lia|].
    destruct Hl as [-> _]. done. }
  rewrite bool_decide_eq_false_2 by done.
  destruct (Z.leb_spec n 0) as [?|_]; [lia|]. cbn [orb].
  cbv beta iota zeta. fold s h1.
  pose proof (advance_spec h1 (Some s) ch Hch fuel 0 n) as Hadv.
  change (node_ptr ch 0) with (Some s) in Hadv.
  change (Z.of_nat 0) with 0 in Hadv.
  rewrite Hadv by (unfold len; lia). clear Hadv. unfold len.
  destruct (Z.ltb_spec n (Z.of_nat (length ch))) as [_|?]; [|lia].
  cbn [mbind outcome_bind].
  pose proof (follow_spec h1 (Some s) ch Hch fuel (Z.to_nat n) 0) as Hfol.
  change (node_ptr ch 0) with (Some s) in Hfol.
  rewrite Hfol by lia. clear Hfol. cbn [mbind outcome_bind].
  set (i := (0 + (length ch - 1 - Z.to_nat n))%nat).
  assert (i = Z.to_nat (Z.of_nat (length nodes) - n)) as Hi by lia.
  assert (S i < length ch)%nat as Hi' by lia.
  rewrite (bind_Ok _ _ _ (get_next_node h1 _ ch i Hch ltac:(lia))).
  rewrite (bind_Ok _ _ _ (get_next_node h1 _ ch (S i) Hch Hi')).
  destruct (lookup_lt_is_Some_2 ch i ltac:(lia)) as [[l1 v1] H1].
  destruct (lookup_lt_is_Some_2 ch (S i) Hi') as [[l2 v2] H2].
  assert (ch = take i ch ++ (l1, v1) :: (l2, v2) :: drop (S (S i)) ch)
    as Hsplit.
  { rewrite <- (drop_S ch (l2, v2) (S i) H2).
    symmetry. by apply take_drop_middle. }
  assert (node_ptr ch (S (S i)) = node_ptr (drop (S (S i)) ch) 0) as Hptr.
  { unfold node_ptr. rewrite lookup_drop. by rewrite Nat.add_0_r. }
  pose proof Hch as Hunlink. rewrite Hsplit in Hunlink.
  apply is_list_unlink in Hunlink. rewrite <- Hptr in Hunlink.
  assert (take i ch ++ (l1, v1) :: drop (S (S i)) ch
          = (s, 0) :: delete i nodes) as Hdel.
  { change ((s, 0) :: delete i nodes) with (delete (S i) ch).
    rewrite delete_take_drop, (take_S_r ch i (l1, v1) H1).
    by rewrite <- app_assoc. }
  rewrite Hdel in Hunlink.
  unfold node_ptr at 1. rewrite H1. cbn [fmap option_fmap option_map fst].
  unfold set_next.
  rewrite (is_list_lookup h1 _ ch i l1 v1 Hch H1). cbn [value].
  cbn [mbind outcome_bind].
  destruct Hunlink as (_ & q & Hq & Hrest).
  unfold get_next. rewrite Hq. cbn [next mbind outcome_bind].
  eexists _, q. split; [reflexivity|]. by rewrite <- Hi.
Qed.

(** Without a head, with [n <= 0] or with [n > L] the chain stays as it
    is, and so does every cell the heap had. *)
Lemma remove_out_of_range (fuel : nat) (h : heap) (head : ptr)
    (nodes : list (loc * Z)) (n : Z) :
  is_list h head nodes → head = None ∨ n <= 0 ∨ len nodes < n →
  (length nodes < fuel)%nat →
  ∃ h', removeNthFromEnd fuel h head n = Ok (h', head)
        ∧ is_list h' head nodes ∧ h ⊆ h'.
Proof.
  intros Hl Hn Hf. unfold removeNthFromEnd, new_node.
  destruct (decide (head = None)) as [->|Hhead].
  { exists h. by rewrite bool_decide_eq_true_2. }
  rewrite bool_decide_eq_false_2 by done.
  destruct (Z.leb_spec n 0) as [?|Hpos]; cbn [orb].
  { by exists h. }
  destruct Hn as [?|[?|Hn]]; [done | lia |].
  destruct (sentinel_chain h head nodes Hl) as (Hs & Hl1 & Hch).
  set (s := fresh (dom h)) in *.
  set (h1 := <[s := mkListNode 0 head]> h) in *.
  set (ch := (s, 0) :: nodes) in *.
  assert (length ch = S (length nodes)) as Hlength by done.
  unfold len in *. cbv beta iota zeta. fold s h1.
  pose proof (advance_spec h1 (Some s) ch Hch fuel 0 n) as Hadv.
  change (node_ptr ch 0) with (Some s) in Hadv.
  change (Z.of_nat 0) with 0 in Hadv.
  rewrite Hadv by (unfold len; lia). clear Hadv. unfold len.
  destruct (Z.ltb_spec n (Z.of_nat (length ch))) as [?|_]; [lia|].
  cbn [mbind outcome_bind].
  exists h1. split_and!; [done..|]. by apply insert_subseteq.
Qed.

(** What [removeNthFromEnd] does to a chain, in one statement. *)
Lemma removeNthFromEnd_spec (fuel : nat) (h : heap) (head : ptr)
    (nodes : list (loc * Z)) (n : Z) :
  is_list h head nodes → (length nodes < fuel)%nat →
  ∃ h' head', removeNthFromEnd fuel h head n = Ok (h', head')
              ∧ is_list h' head' (removed nodes n).
Proof.
  intros Hl Hf. unfold removed.
  destruct (Z.leb_spec 1 n) as [H1|H1]; cbn [andb].
  - destruct (Z.leb_spec n (len nodes)) as [H2|H2].
    + by apply remove_in_range.
    + destruct (remove_out_of_range fuel h head nodes n)
        as (h' & ? & ? & _); [done | right; right; lia | done |].
      by exists h', head.
  - destruct (remove_out_of_range fuel h head nodes n)
      as (h' & ? & ? & _); [done | right; left; lia | done |].
    by exists h', head.
Qed.

(** Walking a chain to its end reads its values. *)
Lemma values_is_list (fuel : nat) (h : heap) (p : ptr)
    (nodes : list (loc * Z)) :
  is_list h p nodes → (length nodes < fuel)%nat →
  values fuel h p = Ok nodes.*2.
Proof.
  revert p nodes. induction fuel as [|fuel IH]; intros p nodes Hl Hf; [lia|].
  destruct nodes as [|[l v] nodes]; simpl in *.
  - by rewrite Hl.
  - destruct Hl as (-> & q & -> & Hl). cbn [next value].
    rewrite (IH q nodes Hl) by lia. done.
Qed.

(** [build] lays out a chain with the values asked for, and keeps the
    cells the heap had. *)
Lemma build_is_list (h : heap) (vs : list Z) :
  ∃ nodes, is_list (build h vs).1 (build h vs).2 nodes
           ∧ nodes.*2 = vs ∧ h ⊆ (build h vs).1.
Proof.
  induction vs as [|v vs IH]; simpl.
  { by exists []. }
  destruct (build h vs) as [h1 q]. destruct IH as (nodes & Hl & Hv & Hsub).
  simpl in *. unfold new_node. simpl.
  assert (h1 !! fresh (dom h1) = None) as Hfresh
    by apply not_elem_of_dom, is_fresh.
  exists ((fresh (dom h1), v) :: nodes). split_and!.
  - split; [done|]. exists q. split; [apply lookup_insert_eq|].
    apply is_list_frame; [done|]. intros Hin.
    apply (is_list_dom h1 q nodes _ Hl) in Hin. by apply is_fresh in Hin.
  - rewrite fmap_cons. cbn [snd]. f_equal. exact Hv.
  - etrans; [exact Hsub|]. by apply insert_subseteq.
Qed.

Lemma removed_sublist (nodes : list (loc * Z)) (n : Z) :
  removed nodes n `sublist_of` nodes.
Proof.
  unfold removed. destruct (_ && _); [apply sublist_delete|done].
Qed.

End LinkedListFacts.

(** ** removeNthFromEnd: the claims *)

Section removeNthFromEnd_claims.
Import LinkedList ListSpec LinkedListFacts.

(** C3.  On a chain of [L] nodes and [1 <= n <= L], [removeNthFromEnd]
    returns the chain without its [n]-th node from the end, the node that
    has [n - 1] nodes after it; the other nodes keep their address, value
    and order.  With [n = L] that node is the head, a chain of one node
    becomes [nil], and [1->2->3->4->5] becomes [1->2->3->5] for [n = 2] and
    [2->3->4->5] for [n = 5]. *)
Theorem removeNthFromEnd_removes_nth (fuel : nat) (h : heap) (head : ptr)
    (nodes : list (loc * Z)) (n : Z) :
  (is_list h head nodes → 1 <= n <= len nodes → (length nodes < fuel)%nat →
   ∃ h' head' pre x post,
     nodes = pre ++ x :: post ∧ len post = n - 1
     ∧ removeNthFromEnd fuel h head n = Ok (h', head')
     ∧ is_list h' head' (pre ++ post)
     ∧ (n = len nodes → pre = [])
     ∧ (len nodes = 1 → head' = None))
  ∧ run [1; 2; 3; 4; 5] 2 = Ok [1; 2; 3; 5]
  ∧ run [1; 2; 3; 4; 5] 5 = Ok [2; 3; 4; 5]
  ∧ run [7] 1 = Ok [].
Proof.
  split_and!; [|vm_compute; reflexivity..].
  intros Hl Hn Hf.
  destruct (remove_in_range fuel h head nodes n Hl Hn Hf)
    as (h' & head' & Hrun & Hl').
  unfold len in *. set (i := Z.to_nat (Z.of_nat (length nodes) - n)) in *.
  destruct (lookup_lt_is_Some_2 nodes i ltac:(lia)) as [x Hx].
  rewrite delete_take_drop in Hl'.
  exists h', head', (take i nodes), x, (drop (S i) nodes).
  assert (length (take i nodes) = i) as Hpre by (rewrite length_take; lia).
  split_and!; [| |done..| |].
  - symmetry. by apply take_drop_middle.
  - rewrite length_drop. lia.
  - intros Hn'. apply length_zero_iff_nil. lia.
  - intros HL. assert (i = 0%nat) as Hi by lia. rewrite Hi in Hl'.
    destruct nodes as [|y [|z nodes]]; simpl in *; [lia | done | lia].
Qed.

Lemma removeNthFromEnd_removes_nth_witness :
  ∃ h' head',
    removeNthFromEnd 4 (build ∅ [10; 20; 30]).1 (build ∅ [10; 20; 30]).2 2
    = Ok (h', head')
    ∧ values 3 h' head' = Ok [10; 30].
Proof.
  destruct (removeNthFromEnd_removes_nth 4
              (build ∅ [10; 20; 30]).1 (build ∅ [10; 20; 30]).2
              [(3%positive, 10); (2%positive, 20); (1%positive, 30)] 2)
    as [Hthm _].
  destruct Hthm as (h' & head' & pre & x & post & Hsplit & Hpost & Hrun & Hl' & _).
  - vm_compute. repeat (split; [reflexivity|]; eexists; split; [reflexivity|]).
    reflexivity.
  - unfold len. simpl. lia.
  - simpl. lia.
  - exists h', head'. split; [exact Hrun|].
    assert (length pre = 1%nat ∧ length post = 1%nat) as [Hpre Hpost'].
    { apply (f_equal length) in Hsplit. rewrite length_app in Hsplit.
      unfold len in Hpost. simpl in Hsplit. lia. }
    destruct pre as [|a [|? ?]]; [done| |done].
    destruct post as [|b [|? ?]]; [done| |done].
    injection Hsplit as <- _ <-.
    exact (values_is_list 3 h' head' _ Hl' ltac:(simpl; lia)).
Defined.

(** C4.  Without a head, with [n <= 0] or with [n] above the length of
    the chain, [removeNthFromEnd] returns [head] without a panic; the
    chain from it has the same nodes and no cell of the heap has
    changed. *)
Theorem removeNthFromEnd_no_op (fuel : nat) (h : heap) (head : ptr)
    (nodes : list (loc * Z)) (n : Z) :
  (is_list h head nodes → head = None ∨ n <= 0 ∨ len nodes < n →
   (length nodes < fuel)%nat →
   ∃ h', removeNthFromEnd fuel h head n = Ok (h', head)
         ∧ is_list h' head nodes ∧ h ⊆ h')
  ∧ run [1; 2; 3; 4; 5] 6 = Ok [1; 2; 3; 4; 5]
  ∧ run [1; 2; 3; 4; 5] 0 = Ok [1; 2; 3; 4; 5]
  ∧ run [1; 2; 3; 4; 5] (-2) = Ok [1; 2; 3; 4; 5]
  ∧ run [] 1 = Ok [].
Proof.
  split_and!; [|vm_compute; reflexivity..].
  apply remove_out_of_range.
Qed.

Lemma removeNthFromEnd_no_op_witness :
  ∃ h',
    removeNthFromEnd 4 (build ∅ [10; 20; 30]).1 (build ∅ [10; 20; 30]).2 4
    = Ok (h', (build ∅ [10; 20; 30]).2)
    ∧ values 4 h' (build ∅ [10; 20; 30]).2 = Ok [10; 20; 30].
Proof.
  destruct (removeNthFromEnd_no_op 4
              (build ∅ [10; 20; 30]).1 (build ∅ [10; 20; 30]).2
              [(3%positive, 10); (2%positive, 20); (1%positive, 30)] 4)
    as [Hthm _].
  destruct Hthm as (h' & Hrun & Hl' & _).
  - vm_compute. repeat (split; [reflexivity|]; eexists; split; [reflexivity|]).
    reflexivity.
  - right. right. unfold len. simpl. lia.
  - simpl. lia.
  - exists h'. split; [exact Hrun|].
    exact (values_is_list 4 h' _ _ Hl' ltac:(simpl; lia)).
Defined.

(** C6.  On a finite chain, whatever [n] is, [removeNthFromEnd] returns
    without a panic: no [nil] is dereferenced.  The chain returned is
    made of nodes of the chain given, in their order, goes through no
    node twice and reaches [nil]. *)
Theorem removeNthFromEnd_safe (fuel : nat) (h : heap) (head : ptr)
    (nodes : list (loc * Z)) (n : Z) :
  is_list h head nodes → (length nodes < fuel)%nat →
  ∃ h' head' nodes',
    removeNthFromEnd fuel h head n = Ok (h', head')
    ∧ is_list h' head' nodes'
    ∧ NoDup nodes'.*1
    ∧ nodes' `sublist_of` nodes
    ∧ values (S (length nodes')) h' head' = Ok nodes'.*2.
Proof.
  intros Hl Hf.
  destruct (removeNthFromEnd_spec fuel h head nodes n Hl Hf)
    as (h' & head' & Hrun & Hl').
  exists h', head', (removed nodes n). split_and!; [done..| | |].
  - by eapply is_list_NoDup.
  - apply removed_sublist.
  - apply values_is_list; [done|lia].
Qed.

Lemma removeNthFromEnd_safe_witness :
  ∃ h' head' nodes',
    removeNthFromEnd 4 (build ∅ [10; 20; 30]).1 (build ∅ [10; 20; 30]).2 3
    = Ok (h', head')
    ∧ is_list h' head' nodes' ∧ NoDup nodes'.*1.
Proof.
  destruct (removeNthFromEnd_safe 4
              (build ∅ [10; 20; 30]).1 (build ∅ [10; 20; 30]).2
              [(3%positive, 10); (2%positive, 20); (1%positive, 30)] 3)
    as (h' & head' & nodes' & Hrun & Hl' & Hnd & _).
  - vm_compute. repeat (split; [reflexivity|]; eexists; split; [reflexivity|]).
    reflexivity.
  - simpl. lia.
  - by exists h', head', nodes'.
Defined.

End removeNthFromEnd_claims.

(** ** The three operations run again *)

Section rerun_claims.
Import ThreeSum LinkedList ListSpec LinkedListFacts Palindrome.

(** C9.  Each of the three operations, run on two equal inputs, gives two
    equal results: [threeSum] on two slices with the same contents,
    [isPalindrome] on two equal strings, and [removeNthFromEnd] on two
    chains that hold the same values, wherever their nodes are in the
    heap, with the same [n]. *)
Theorem rerun_same_result (nums1 nums2 : list Z) (s1 s2 : list byte)
    (fuel1 fuel2 : nat) (h1 h2 : heap) (p1 p2 : ptr)
    (nodes1 nodes2 : list (loc * Z)) (n : Z) :
  (nums1 = nums2 → threeSum nums1 = threeSum nums2)
  ∧ (s1 = s2 → isPalindrome s1 = isPalindrome s2)
  ∧ (is_list h1 p1 nodes1 → is_list h2 p2 nodes2 →
     nodes1.*2 = nodes2.*2 →
     (length nodes1 < fuel1)%nat → (length nodes2 < fuel2)%nat →
     ∃ h1' p1' h2' p2' vs,
       removeNthFromEnd fuel1 h1 p1 n = Ok (h1', p1')
       ∧ removeNthFromEnd fuel2 h2 p2 n = Ok (h2', p2')
       ∧ values (S (length vs)) h1' p1' = Ok vs
       ∧ values (S (length vs)) h2' p2' = Ok vs).
Proof.
  split_and!; [by intros -> | by intros -> |].
  intros Hl1 Hl2 Hv Hf1 Hf2.
  destruct (removeNthFromEnd_spec fuel1 h1 p1 nodes1 n Hl1 Hf1)
    as (h1' & p1' & Hrun1 & Hl1').
  destruct (removeNthFromEnd_spec fuel2 h2 p2 nodes2 n Hl2 Hf2)
    as (h2' & p2' & Hrun2 & Hl2').
  assert ((removed nodes1 n).*2 = (removed nodes2 n).*2) as Hsame.
  { unfold removed, len.
    assert (length nodes1 = length nodes2) as ->.
    { by rewrite <- (length_fmap snd nodes1), Hv, length_fmap. }
    destruct (_ && _); [|done]. by rewrite !list_fmap_delete, Hv. }
  exists h1', p1', h2', p2', (removed nodes1 n).*2.
  rewrite length_fmap. split_and!; [done..| |].
  - apply values_is_list; [done|lia].
  - rewrite Hsame, <- (length_fmap snd), Hsame, length_fmap.
    apply values_is_list; [done|lia].
Qed.

Lemma rerun_same_result_witness :
  threeSum [-1; 0; 1; 2; -1; -4] = threeSum [-1; 0; 1; 2; -1; -4]
  ∧ isPalindrome (list_byte_of_string "abab")
    = isPalindrome (list_byte_of_string "abab")
  ∧ ∃ h1' p1' h2' p2' vs,
      removeNthFromEnd 4 (build ∅ [10; 20; 30]).1 (build ∅ [10; 20; 30]).2 2
      = Ok (h1', p1')
      ∧ removeNthFromEnd 9 (build (build ∅ [5; 5]).1 [10; 20; 30]).1
          (build (build ∅ [5; 5]).1 [10; 20; 30]).2 2
        = Ok (h2', p2')
      ∧ values (S (length vs)) h1' p1' = Ok vs
      ∧ values (S (length vs)) h2' p2' = Ok vs.
Proof.
  destruct (rerun_same_result
              [-1; 0; 1; 2; -1; -4] [-1; 0; 1; 2; -1; -4]
              (list_byte_of_string "abab") (list_byte_of_string "abab")
              4 9
              (build ∅ [10; 20; 30]).1
              (build (build ∅ [5; 5]).1 [10; 20; 30]).1
              (build ∅ [10; 20; 30]).2
              (build (build ∅ [5; 5]).1 [10; 20; 30]).2
              [(3%positive, 10); (2%positive, 20); (1%positive, 30)]
              [(5%positive, 10); (4%positive, 20); (3%positive, 30)] 2)
    as (Hts & Hpal & Hlist).
  split_and!.
  - apply Hts. reflexivity.
  - apply Hpal. reflexivity.
  - apply Hlist.
    + vm_compute.
      repeat (split; [reflexivity|]; eexists; split; [reflexivity|]).
      reflexivity.
    + vm_compute.
      repeat (split; [reflexivity|]; eexists; split; [reflexivity|]).
      reflexivity.
    + reflexivity.
    + simpl. lia.
    + simpl. lia.
Defined.

End rerun_claims.


(** * Further properties *)

(** ** threeSum finds every triplet when no sum overflows *)

Module ThreeSumComplete.
Import GoInt GoIntFacts ThreeSum TripletSpec ThreeSumFacts.

Section loops.
Variable nums : list Z.
Hypothesis nums_sorted : StronglySorted Z.le nums.
Hypothesis nums_small :
  ∀ i, 0 <= i < len nums → - 2 ^ 61 <= val nums i <= 2 ^ 61.

(** With values this small the sum of three of them does not wrap. *)
Lemma total_exact (i l r : Z) :
  0 <= i < len nums → 0 <= l < len nums → 0 <= r < len nums →
  wrap (val nums l + val nums r + val nums i)
  = val nums l + val nums r + val nums i.
Proof.
  intros Hi Hl Hr. apply wrap_id.
  pose proof (nums_small i Hi). pose proof (nums_small l Hl).
  pose proof (nums_small r Hr). unfold is_int, min_int, max_int. lia.
Qed.

(** The second skipping loop stays on the value it started from. *)
Lemma skip_right_val (fuel : nat) (left right : Z) :
  0 <= left <= right → right < len nums → right - left < Z.of_nat fuel →
  ∃ right', skip_right fuel nums left right = Ok right'
            ∧ left <= right' <= right
            ∧ val nums right' = val nums right.
Proof.
  revert right. induction fuel as [|fuel IH]; intros right Hl Hr Hf; [lia|].
  simpl. destruct (Z.ltb_spec left (right - 1)) as [Hlt|Hge].
  - rewrite (bind_Ok _ _ _ (index_val nums right ltac:(lia))).
    rewrite (bind_Ok _ _ _ (index_val nums (right - 1) ltac:(lia))).
    destruct (Z.eqb_spec (val nums right) (val nums (right - 1))) as [Heq|Hne].
    + destruct (IH (right - 1)) as (right' & -> & ? & Hv); [lia..|].
      exists right'. split_and!; [done | lia | lia | congruence].
    + exists right. split_and!; [done | lia..| done].
  - exists right. split_and!; [done | lia..| done].
Qed.

(** The inner loop keeps what it was given and appends every pair of the
    range whose sum with [v] is zero. *)
Lemma scan_complete (fuel : nat) (i left right : Z)
    (result res : list (list Z)) :
  0 <= i < left → right < len nums →
  Z.max 0 (right - left) < Z.of_nat fuel →
  scan fuel nums (val nums i) left right result = Ok res →
  (∀ t, t ∈ result → t ∈ res)
  ∧ ∀ l r, left <= l → l < r → r <= right →
      val nums i + val nums l + val nums r = 0 →
      [val nums i; val nums l; val nums r] ∈ res.
Proof.
  revert left right result.
  induction fuel as [|fuel IH]; intros left right result Hl Hr Hf; [lia|].
  rewrite scan_S. destruct (Z.ltb_spec left right) as [Hlt|Hge].
  2:{ intros [= <-]. split; [done|]. intros; lia. }
  rewrite (bind_Ok _ _ _ (index_val nums left ltac:(lia))).
  rewrite (bind_Ok _ _ _ (index_val nums right ltac:(lia))).
  rewrite add_add, total_exact by lia.
  assert (∀ x y, 0 <= x → x <= y → y < len nums → val nums x <= val nums y)
    as Hmono.
  { intros x y ???. apply val_sorted; [done | lia..]. }
  destruct (Z.eqb_spec (val nums left + val nums right + val nums i) 0)
    as [Hz|Hnz].
  - destruct (skip_left_spec nums (S fuel) left right)
      as (left' & Hsl & Hl' & Hvl & _); [lia..|].
    destruct (skip_right_val (S fuel) (left' + 1) right)
      as (right' & Hsr & Hr' & Hvr); [lia..|].
    rewrite (bind_Ok _ _ _ Hsl), (bind_Ok _ _ _ Hsr). intros Hscan.
    destruct (IH (left' + 1) (right' - 1) _
                ltac:(lia) ltac:(lia) ltac:(lia) Hscan) as [Hkeep Hall].
    split.
    { intros t Ht. apply Hkeep, elem_of_app. by left. }
    intros l r ? ? ? Hsum.
    destruct (decide (val nums l = val nums left)) as [Heq|Hne].
    + assert (val nums r = val nums right) as -> by lia. rewrite Heq.
      apply Hkeep, elem_of_app. right. apply list_elem_of_here.
    + pose proof (Hmono left l ltac:(lia) ltac:(lia) ltac:(lia)).
      assert (left' < l) as Hll.
      { destruct (Z.le_gt_cases l left') as [Hle|]; [|done].
        pose proof (Hmono l left' ltac:(lia) Hle ltac:(lia)). lia. }
      assert (r < right') as Hrr.
      { destruct (Z.le_gt_cases right' r) as [Hle|]; [|lia].
        pose proof (Hmono right' r ltac:(lia) Hle ltac:(lia)). lia. }
      apply Hall; [lia..|done].
  - destruct (Z.ltb_spec (val nums left + val nums right + val nums i) 0).
    + intros Hscan.
      destruct (IH (left + 1) right _ ltac:(lia) ltac:(lia) ltac:(lia) Hscan)
        as [Hkeep Hall].
      split; [done|]. intros l r ? ? ? Hsum.
      destruct (decide (l = left)) as [->|]; [|apply Hall; [lia..|done]].
      pose proof (Hmono r right ltac:(lia) ltac:(lia) ltac:(lia)). lia.
    + intros Hscan.
      destruct (IH left (right - 1) _ ltac:(lia) ltac:(lia) ltac:(lia) Hscan)
        as [Hkeep Hall].
      split; [done|]. intros l r ? ? ? Hsum.
      destruct (decide (r = right)) as [->|]; [|apply Hall; [lia..|done]].
      pose proof (Hmono left l ltac:(lia) ltac:(lia) ltac:(lia)). lia.
Qed.

(** The outer loop keeps what it was given and appends every triplet of
    three indices [j < l < r] whose sum is zero, [j] being from [i] on and
    the first index with its value. *)
Lemma anchors_complete (fuel : nat) (i : Z) (result res : list (list Z)) :
  0 <= i → Z.max 0 (len nums - 2 - i) < Z.of_nat fuel →
  anchors fuel nums (len nums) i result = Ok res →
  (∀ t, t ∈ result → t ∈ res)
  ∧ ∀ j l r, i <= j → j < l → l < r → r < len nums →
      (j = 0 ∨ val nums (j - 1) < val nums j) →
      val nums j + val nums l + val nums r = 0 →
      [val nums j; val nums l; val nums r] ∈ res.
Proof.
  revert i result.
  induction fuel as [|fuel IH]; intros i result Hi Hf; [lia|].
  assert (∀ x y, 0 <= x → x <= y → y < len nums → val nums x <= val nums y)
    as Hmono.
  { intros x y ???. apply val_sorted; [done | lia..]. }
  rewrite anchors_S. destruct (Z.ltb_spec i (len nums - 2)) as [Hlt|Hge].
  2:{ intros [= <-]. split; [done|]. intros; lia. }
  rewrite (bind_Ok _ _ _ (index_val nums i ltac:(lia))).
  destruct (Z.ltb_spec 0 (val nums i)) as [Hpos|Hv].
  { intros [= <-]. split; [done|]. intros j l r ? ? ? ? _ Hsum.
    pose proof (Hmono i j ltac:(lia) ltac:(lia) ltac:(lia)).
    pose proof (Hmono j l ltac:(lia) ltac:(lia) ltac:(lia)).
    pose proof (Hmono l r ltac:(lia) ltac:(lia) ltac:(lia)). lia. }
  assert (∃ skip : bool,
             (if 0 <? i
              then a ← index nums i; b ← index nums (i - 1); Ok (a =? b)
              else Ok false) = Ok skip
             ∧ (skip = true → 0 < i ∧ val nums i = val nums (i - 1)))
    as (skip & -> & Hskip).
  { destruct (Z.ltb_spec 0 i) as [Hi0|Hi0].
    - rewrite (bind_Ok _ _ _ (index_val nums i ltac:(lia))).
      rewrite (bind_Ok _ _ _ (index_val nums (i - 1) ltac:(lia))).
      eexists. split; [reflexivity|]. intros Heq%Z.eqb_eq. done.
    - exists false. done. }
  cbn [mbind outcome_bind]. destruct skip.
  - destruct (Hskip eq_refl) as [Hi0 Heq]. intros Hrun.
    destruct (IH (i + 1) result ltac:(lia) ltac:(lia) Hrun) as [Hkeep Hall].
    split; [done|]. intros j l r ? ? ? ? Hfirst Hsum.
    destruct (decide (j = i)) as [->|]; [lia|]. apply Hall; [lia..|done|done].
  - destruct (scan_spec nums nums_sorted (S fuel) (val nums i) (i + 1)
                (len nums - 1) result) as (out1 & Hscan & _); [lia..|].
    rewrite (bind_Ok _ _ _ Hscan). intros Hrun.
    destruct (scan_complete (S fuel) i (i + 1) (len nums - 1) result _
                ltac:(lia) ltac:(lia) ltac:(lia) Hscan) as [Hkeep1 Hall1].
    destruct (IH (i + 1) _ ltac:(lia) ltac:(lia) Hrun) as [Hkeep Hall].
    split; [by auto|]. intros j l r ? ? ? ? Hfirst Hsum.
    destruct (decide (j = i)) as [->|]; [|apply Hall; [lia..|done|done]].
    apply Hkeep, Hall1; [lia..|done].
Qed.

(** Every value has a first index. *)
Lemma first_index (j : Z) :
  0 <= j < len nums →
  ∃ j0, 0 <= j0 <= j ∧ val nums j0 = val nums j
        ∧ (j0 = 0 ∨ val nums (j0 - 1) < val nums j0).
Proof.
  intros Hj. assert (∃ k : nat, j = Z.of_nat k) as [k ->].
  { exists (Z.to_nat j). lia. }
  induction k as [|k IH].
  - exists 0. split_and!; [lia | lia | done | by left].
  - destruct (decide (val nums (Z.of_nat k) = val nums (Z.of_nat (S k))))
      as [Heq|Hne].
    + destruct IH as (j0 & ? & ? & ?); [lia|].
      exists j0. split_and!; [lia | lia | congruence | done].
    + exists (Z.of_nat (S k)). split_and!; [lia | lia | done |]. right.
      replace (Z.of_nat (S k) - 1) with (Z.of_nat k) by lia.
      pose proof (val_sorted nums (Z.of_nat k) (Z.of_nat (S k)) nums_sorted
                    ltac:(lia) ltac:(lia)). lia.
Qed.

(** Three values at three different places of a sorted slice are, in
    increasing order, at three increasing indices. *)
Lemma increasing_indices (p q s : nat) (a b c : Z) :
  nums !! p = Some a → nums !! q = Some b → nums !! s = Some c →
  p ≠ q → q ≠ s → p ≠ s → a <= b → b <= c →
  ∃ p' q' s', (p' < q')%nat ∧ (q' < s')%nat
              ∧ nums !! p' = Some a ∧ nums !! q' = Some b
              ∧ nums !! s' = Some c.
Proof.
  intros Hp Hq Hs Hpq Hqs Hps Hab Hbc.
  assert (∀ x y vx vy, (x < y)%nat → nums !! x = Some vx →
            nums !! y = Some vy → vx <= vy) as Hord.
  { intros x y vx vy ???. by eapply (strongly_sorted_lookup Z.le nums x y). }
  destruct (decide (p < q)%nat), (decide (q < s)%nat), (decide (p < s)%nat);
    try lia.
  - by exists p, q, s.
  - assert (b = c) as -> by (pose proof (Hord s q c b ltac:(lia) Hs Hq); lia).
    exists p, s, q. split_and!; [lia..|done|done|done].
  - assert (b = c) as -> by (pose proof (Hord s q c b ltac:(lia) Hs Hq); lia).
    assert (a = c) as -> by (pose proof (Hord s p c a ltac:(lia) Hs Hp); lia).
    exists s, p, q. split_and!; [lia..|done|done|done].
  - assert (a = b) as -> by (pose proof (Hord q p b a ltac:(lia) Hq Hp); lia).
    exists q, p, s. split_and!; [lia..|done|done|done].
  - assert (a = b) as -> by (pose proof (Hord q p b a ltac:(lia) Hq Hp); lia).
    assert (b = c) as -> by (pose proof (Hord s p c b ltac:(lia) Hs Hp); lia).
    exists q, s, p. split_and!; [lia..|done|done|done].
  - assert (b = c) as -> by (pose proof (Hord s q c b ltac:(lia) Hs Hq); lia).
    assert (a = c) as -> by (pose proof (Hord q p c a ltac:(lia) Hq Hp); lia).
    exists s, q, p. split_and!; [lia..|done|done|done].
Qed.

End loops.

Lemma elem_of_sort_Ints (nums : list Z) (x : Z) :
  x ∈ sort_Ints nums ↔ x ∈ nums.
Proof. by rewrite sort_Ints_perm. Qed.

(** Three elements of the input, in increasing order, are at three
    increasing indices of the sorted slice. *)
Lemma sorted_indices (nums rest : list Z) (a b c : Z) :
  nums ≡ₚ a :: b :: c :: rest → a <= b → b <= c →
  ∃ j l r, 0 <= j ∧ j < l ∧ l < r ∧ r < len (sort_Ints nums)
           ∧ val (sort_Ints nums) j = a ∧ val (sort_Ints nums) l = b
           ∧ val (sort_Ints nums) r = c.
Proof.
  intros Hp Hab Hbc.
  assert (a :: b :: c :: rest ≡ₚ sort_Ints nums) as Hp'.
  { by rewrite sort_Ints_perm. }
  apply Permutation_inj in Hp' as (_ & f & Hinj & Hf).
  destruct (increasing_indices (sort_Ints nums) (sort_Ints_sorted nums)
              (f 0%nat) (f 1%nat) (f 2%nat) a b c)
    as (p & q & s & ? & ? & Ha & Hb & Hc);
    [by rewrite <- Hf.. | | | | done | done |].
  1-3: intros Heq; by apply Hinj in Heq.
  exists (Z.of_nat p), (Z.of_nat q), (Z.of_nat s).
  pose proof (lookup_lt_Some _ _ _ Hc). unfold len, val. rewrite !Nat2Z.id.
  split_and!; [lia..| | |]; by apply list_lookup_total_correct.
Qed.

End ThreeSumComplete.

Section threeSum_further.
Import GoInt GoIntFacts ThreeSum TripletSpec ThreeSumFacts ThreeSumComplete.



(** X2.  [threeSum] does not depend on the order of its input: two slices
    with the same elements are left the same and give the same result.  So
    a second call on the slice the first call has sorted gives the first
    result again. *)
Theorem threeSum_input_order (nums1 nums2 : list Z) :
  (nums1 ≡ₚ nums2 → threeSum nums1 = threeSum nums2)
  ∧ threeSum (threeSum nums1).1 = threeSum nums1.
Proof.
  assert (∀ l1 l2 : list Z, l1 ≡ₚ l2 → threeSum l1 = threeSum l2) as Hperm.
  { intros l1 l2 Hp. unfold threeSum.
    assert (sort_Ints l1 = sort_Ints l2) as ->; [|done].
    apply sorted_perm_unique; [apply sort_Ints_sorted|].
    by rewrite sort_Ints_perm. }
  split; [apply Hperm|]. apply Hperm. apply sort_Ints_perm.
Qed.

Lemma threeSum_input_order_witness :
  threeSum [2; -1; -1; 0; 1] = threeSum [-1; 0; 1; 2; -1].
Proof.
  apply (proj1 (threeSum_input_order [2; -1; -1; 0; 1] [-1; 0; 1; 2; -1])).
  change ([2; -1; -1; 0; 1]) with ([2] ++ [-1] ++ [-1; 0; 1]).
  change ([-1; 0; 1; 2; -1]) with ([-1; 0; 1] ++ [2] ++ [-1]).
  solve_Permutation.
Defined.

(** X3.  The triplets come out in strictly increasing order of their first
    two values, and each of them has its three values in increasing order,
    the first one not positive. *)
Theorem threeSum_result_order (nums : list Z) (res : list (list Z)) :
  snd (threeSum nums) = Ok res →
  StronglySorted triplet_lt res
  ∧ Forall (λ t, ∃ a b c, t = [a; b; c] ∧ a <= b ∧ b <= c ∧ a <= 0) res.
Proof.
  intros Hres. split; [by apply threeSum_returns in Hres as [_ ?]|].
  apply Forall_forall. intros t Ht.
  destruct (returned_triplet nums res t Hres Ht)
    as (a & b & c & -> & ? & ? & ? & _).
  by exists a, b, c.
Qed.

Lemma threeSum_result_order_witness :
  StronglySorted triplet_lt [[-1; -1; 2]; [-1; 0; 1]].
Proof.
  apply (proj1 (threeSum_result_order [-1; 0; 1; 2; -1; -4] _ eq_refl)).
Defined.

End threeSum_further.

(** ** removeNthFromEnd: what it writes *)

Module LinkedListHeap.
Import LinkedList ListSpec LinkedListFacts.

(** The heap after a removal: the sentinel is allocated and one [next]
    field is written, in the node before the one removed. *)
Lemma remove_in_range_heap (fuel : nat) (h : heap) (head : ptr)
    (nodes : list (loc * Z)) (n : Z) :
  is_list h head nodes → 1 <= n <= len nodes → (length nodes < fuel)%nat →
  ∃ head' l1 v1 q,
    ((fresh (dom h), 0) :: nodes) !! Z.to_nat (len nodes - n) = Some (l1, v1)
    ∧ removeNthFromEnd fuel h head n
      = Ok (<[l1 := mkListNode v1 q]>
              (<[fresh (dom h) := mkListNode 0 head]> h), head').
Proof.
  intros Hl Hn Hf. unfold removeNthFromEnd, new_node.
  destruct (sentinel_chain h head nodes Hl) as (Hs & Hl1 & Hch).
  set (s := fresh (dom h)) in *.
  set (h1 := <[s := mkListNode 0 head]> h) in *.
  set (ch := (s, 0) :: nodes) in *.
  assert (len ch = 1 + len nodes) as Hlen by apply len_cons.
  assert (length ch = S (length nodes)) as Hlength by done.
  unfold len in *.
  assert (head ≠ None) as Hhead.
  { destruct nodes as [|[l v] nodes]; [simpl in Hn; lia|].
    destruct Hl as [-> _]. done. }
  rewrite bool_decide_eq_false_2 by done.
  destruct (Z.leb_spec n 0) as [?|_]; [lia|]. cbn [orb].
  cbv beta iota zeta. fold s h1.
  pose proof (advance_spec h1 (Some s) ch Hch fuel 0 n) as Hadv.
  change (node_ptr ch 0) with (Some s) in Hadv.
  change (Z.of_nat 0) with 0 in Hadv.
  rewrite Hadv by (unfold len; lia). clear Hadv. unfold len.
  destruct (Z.ltb_spec n (Z.of_nat (length ch))) as [_|?]; [|lia].
  cbn [mbind outcome_bind].
  pose proof (follow_spec h1 (Some s) ch Hch fuel (Z.to_nat n) 0) as Hfol.
  change (node_ptr ch 0) with (Some s) in Hfol.
  rewrite Hfol by lia. clear Hfol. cbn [mbind outcome_bind].
  set (i := (0 + (length ch - 1 - Z.to_nat n))%nat).
  assert (i = Z.to_nat (Z.of_nat (length nodes) - n)) as Hi by lia.
  assert (S i < length ch)%nat as Hi' by lia.
  rewrite (bind_Ok _ _ _ (get_next_node h1 _ ch i Hch ltac:(lia))).
  rewrite (bind_Ok _ _ _ (get_next_node h1 _ ch (S i) Hch Hi')).
  destruct (lookup_lt_is_Some_2 ch i ltac:(lia)) as [[l1 v1] H1].
  destruct (lookup_lt_is_Some_2 ch (S i) Hi') as [[l2 v2] H2].
  assert (ch = take i ch ++ (l1, v1) :: (l2, v2) :: drop (S (S i)) ch)
    as Hsplit.
  { rewrite <- (drop_S ch (l2, v2) (S i) H2).
    symmetry. by apply take_drop_middle. }
  assert (node_ptr ch (S (S i)) = node_ptr (drop (S (S i)) ch) 0) as Hptr.
  { unfold node_ptr. rewrite lookup_drop. by rewrite Nat.add_0_r. }
  pose proof Hch as Hunlink. rewrite Hsplit in Hunlink.
  apply is_list_unlink in Hunlink. rewrite <- Hptr in Hunlink.
  assert (take i ch ++ (l1, v1) :: drop (S (S i)) ch
          = (s, 0) :: delete i nodes) as Hdel.
  { change ((s, 0) :: delete i nodes) with (delete (S i) ch).
    rewrite delete_take_drop, (take_S_r ch i (l1, v1) H1).
    by rewrite <- app_assoc. }
  rewrite Hdel in Hunlink.
  unfold node_ptr at 1. rewrite H1. cbn [fmap option_fmap option_map fst].
  unfold set_next.
  rewrite (is_list_lookup h1 _ ch i l1 v1 Hch H1). cbn [value].
  cbn [mbind outcome_bind].
  destruct Hunlink as (_ & q & Hq & Hrest).
  unfold get_next. rewrite Hq. cbn [next mbind outcome_bind].
  exists q, l1, v1, (node_ptr ch (S (S i))). split; [|reflexivity].
  by rewrite <- Hi.
Qed.

End LinkedListHeap.

(** ** removeNthFromEnd: the list built, trimmed and printed *)

Section removeNthFromEnd_further.
Import LinkedList ListSpec LinkedListFacts.

(** X4.  Building a list with the values [vs], calling [removeNthFromEnd]
    on it and walking the result as [printList] does gives [vs] without its
    [n]-th value from the end when [1 <= n <= len vs], and [vs] otherwise;
    no step panics or fails to return. *)
Theorem run_removes_value (vs : list Z) (n : Z) :
  run vs n
  = Ok (if (1 <=? n) && (n <=? len vs)
        then delete (Z.to_nat (len vs - n)) vs
        else vs).
Proof.
  unfold run.
  destruct (build_is_list ∅ vs) as (nodes & Hl & Hv & _).
  destruct (build ∅ vs) as [h head]. simpl in Hl.
  assert (length nodes = length vs) as Hlen.
  { by rewrite <- Hv, length_fmap. }
  destruct (removeNthFromEnd_spec (S (length vs)) h head nodes n Hl)
    as (h' & head' & -> & Hl'); [lia|].
  cbn [mbind outcome_bind].
  rewrite (values_is_list _ h' head' _ Hl').
  - f_equal. unfold removed, len. rewrite Hlen.
    destruct (_ && _); [|done]. by rewrite list_fmap_delete, Hv.
  - pose proof (sublist_length _ _ (removed_sublist nodes n)). lia.
Qed.

(** X5.  A removal allocates the sentinel and writes one [next] field, in
    the node before the one removed: every cell the heap had keeps its
    value, every cell other than that node is unchanged, and so is the cell
    of the node removed, which is not in the chain any more. *)
Theorem removeNthFromEnd_writes (fuel : nat) (h : heap) (head : ptr)
    (pre post : list (loc * Z)) (x : loc * Z) :
  is_list h head (pre ++ x :: post) →
  (length (pre ++ x :: post) < fuel)%nat →
  ∃ h' head',
    removeNthFromEnd fuel h head (len post + 1) = Ok (h', head')
    ∧ dom h' = {[fresh (dom h)]} ∪ dom h
    ∧ (∀ l nd, h !! l = Some nd →
         ∃ nd', h' !! l = Some nd' ∧ value nd' = value nd)
    ∧ (∀ l, l ∈ dom h → fst <$> last pre ≠ Some l → h' !! l = h !! l)
    ∧ h' !! x.1 = h !! x.1.
Proof.
  intros Hl Hf.
  assert (1 <= len post + 1 <= len (pre ++ x :: post)) as Hn.
  { rewrite len_app, len_cons.
    pose proof (len_nonneg pre). pose proof (len_nonneg post). lia. }
  destruct (LinkedListHeap.remove_in_range_heap fuel h head _ _ Hl Hn Hf)
    as (head' & l1 & v1 & q & Hi & Hrun).
  replace (Z.to_nat (len (pre ++ x :: post) - (len post + 1)))
    with (length pre) in Hi
    by (rewrite len_app, len_cons; unfold len; lia).
  set (s := fresh (dom h)) in *.
  assert (h !! s = None) as Hs by apply not_elem_of_dom, is_fresh.
  pose proof (is_list_NoDup _ _ _ Hl) as Hnd.
  assert ((pre = [] ∧ l1 = s)
          ∨ (last pre = Some (l1, v1) ∧ l1 ≠ x.1
             ∧ ∃ q', h !! l1 = Some (mkListNode v1 q'))) as Hcase.
  { destruct (decide (pre = [])) as [->|Hpre].
    - left. simpl in Hi. by injection Hi as <- _.
    - right. destruct (PalindromeFacts.nonempty_snoc pre Hpre)
        as (pre' & y & ->).
      rewrite length_app in Hi. simpl in Hi.
      replace (length pre' + 1)%nat with (S (length pre')) in Hi by lia.
      simpl in Hi. rewrite <- !app_assoc in Hi.
      rewrite lookup_app_r, Nat.sub_diag in Hi by lia.
      simpl in Hi. injection Hi as ->.
      split_and!; [by rewrite last_snoc | |].
      + intros Heq. rewrite <- app_assoc, fmap_app in Hnd.
        apply NoDup_app in Hnd as (_ & _ & Hnd). simpl in Hnd.
        apply NoDup_cons in Hnd as [Hnd _]. apply Hnd.
        rewrite Heq. left.
      + eexists. eapply (is_list_lookup h head _ (length pre')); [exact Hl|].
        rewrite <- app_assoc. by rewrite lookup_app_r, Nat.sub_diag by lia. }
  assert (x.1 ∈ dom h) as Hx.
  { eapply is_list_dom; [exact Hl|]. rewrite fmap_app, fmap_cons.
    apply elem_of_app. right. left. }
  assert (x.1 ≠ s) as Hxs.
  { intros Heq. rewrite Heq in Hx. by apply is_fresh in Hx. }
  eexists _, head'. split; [exact Hrun|]. split_and!.
  - rewrite !dom_insert_L.
    destruct Hcase as [[_ ->]|(_ & _ & q' & Hq')]; [set_solver|].
    apply (elem_of_dom_2 (D := gset loc)) in Hq'. set_solver.
  - intros l nd Hnd'.
    assert (l ≠ s) by (intros ->; congruence).
    destruct (decide (l = l1)) as [->|Hne].
    + destruct Hcase as [[_ ->]|(_ & _ & q' & Hq')]; [done|].
      rewrite Hq' in Hnd'. injection Hnd' as <-.
      eexists. by rewrite lookup_insert_eq.
    + exists nd. by rewrite !lookup_insert_ne.
  - intros l Hdom Hlast.
    assert (l ≠ s) by (intros ->; by apply is_fresh in Hdom).
    assert (l ≠ l1).
    { destruct Hcase as [[_ ->]|(Hlast' & _)]; [done|].
      intros ->. apply Hlast. by rewrite Hlast'. }
    by rewrite !lookup_insert_ne.
  - assert (x.1 ≠ l1) by (destruct Hcase as [[_ ->]|(_ & ? & _)]; done).
    by rewrite !lookup_insert_ne.
Qed.

Lemma removeNthFromEnd_writes_witness :
  ∃ h' head',
    removeNthFromEnd 4 (build ∅ [10; 20; 30]).1 (build ∅ [10; 20; 30]).2 2
    = Ok (h', head')
    ∧ h' !! 2%positive = (build ∅ [10; 20; 30]).1 !! 2%positive.
Proof.
  destruct (removeNthFromEnd_writes 4
              (build ∅ [10; 20; 30]).1 (build ∅ [10; 20; 30]).2
              [(3%positive, 10)] [(1%positive, 30)] (2%positive, 20))
    as (h' & head' & Hrun & _ & _ & _ & Hx).
  - vm_compute. repeat (split; [reflexivity|]; eexists; split; [reflexivity|]).
    reflexivity.
  - simpl. lia.
  - by exists h', head'.
Defined.

(** On a chain without an end the loops do not stop. *)
Lemma advance_closed (fuel : nat) (h : heap) (S : loc → Prop) (r : loc)
    (i n : Z) :
  CycleSpec.closed h S → S r →
  advance fuel h (Some r) i n = OutOfFuel
  ∨ ∃ r', S r' ∧ advance fuel h (Some r) i n = Ok (Some (Some r')).
Proof.
  intros Hclosed. revert r i.
  induction fuel as [|fuel IH]; intros r i Hr; [by left|].
  rewrite advance_S. destruct (i <? n); [|right; by exists r].
  destruct (Hclosed r Hr) as (v & r' & Hh & Hr').
  unfold get_next. rewrite Hh. cbn [next mbind outcome_bind].
  apply IH, Hr'.
Qed.

Lemma follow_closed (fuel : nat) (h : heap) (S : loc → Prop) (r l : loc) :
  CycleSpec.closed h S → S r → S l →
  follow fuel h (Some r) (Some l) = OutOfFuel.
Proof.
  intros Hclosed. revert r l.
  induction fuel as [|fuel IH]; intros r l Hr Hl; [done|].
  rewrite follow_S.
  destruct (Hclosed r Hr) as (v & r' & Hh & Hr').
  destruct (Hclosed l Hl) as (w & l' & Hh' & Hl').
  unfold get_next. rewrite Hh. cbn [next mbind outcome_bind].
  rewrite Hh'. cbn [next mbind outcome_bind]. by apply IH.
Qed.

Lemma values_closed (fuel : nat) (h : heap) (S : loc → Prop) (l : loc) :
  CycleSpec.closed h S → S l → values fuel h (Some l) = OutOfFuel.
Proof.
  intros Hclosed. revert l. induction fuel as [|fuel IH]; intros l Hl; [done|].
  destruct (Hclosed l Hl) as (v & l' & Hh & Hl'). simpl. rewrite Hh.
  cbn [next]. by rewrite (IH l' Hl').
Qed.

(** X6.  On a chain that never reaches [nil], a list with a cycle,
    [removeNthFromEnd] with [n > 0] does not return, however long it runs,
    and neither does the walk of [printList]. *)
Theorem removeNthFromEnd_cycle (fuel : nat) (h : heap) (head : ptr) (n : Z) :
  CycleSpec.endless h head → 0 < n →
  removeNthFromEnd fuel h head n = OutOfFuel
  ∧ values fuel h head = OutOfFuel.
Proof.
  intros (S & l0 & -> & Hl0 & Hclosed) Hn.
  split; [|by eapply values_closed].
  unfold removeNthFromEnd, new_node.
  rewrite bool_decide_eq_false_2 by done.
  destruct (Z.leb_spec n 0) as [?|_]; [lia|]. cbn [orb]. cbv beta iota zeta.
  set (s := fresh (dom h)).
  assert (h !! s = None) as Hs by apply not_elem_of_dom, is_fresh.
  set (h1 := <[s := mkListNode 0 (Some l0)]> h).
  assert (CycleSpec.closed h1 (λ l, S l ∨ l = s)) as Hclosed1.
  { intros l [Hl| ->].
    - destruct (Hclosed l Hl) as (v & l' & Hh & Hl').
      exists v, l'. split; [|by left].
      unfold h1. rewrite lookup_insert_ne; [done|]. intros <-. congruence.
    - exists 0, l0. split; [|by left]. apply lookup_insert_eq. }
  destruct (advance_closed fuel h1 _ s 0 n Hclosed1 ltac:(by right))
    as [-> | (r & Hr & ->)]; [done|].
  cbn [mbind outcome_bind].
  by rewrite (follow_closed fuel h1 _ r s Hclosed1 Hr ltac:(by right)).
Qed.

Lemma removeNthFromEnd_cycle_witness :
  removeNthFromEnd 50 {[1%positive := mkListNode 7 (Some 1%positive)]}
    (Some 1%positive) 1
  = OutOfFuel.
Proof.
  apply (removeNthFromEnd_cycle 50
           {[1%positive := mkListNode 7 (Some 1%positive)]}
           (Some 1%positive) 1).
  - exists (λ l, l = 1%positive), 1%positive. split_and!; [done..|].
    intros l ->. exists 7, 1%positive. split; reflexivity.
  - lia.
Defined.

End removeNthFromEnd_further.

(** ** isPalindrome: reversal and the number of turns *)

Module PalindromeMore.
Import Palindrome PalindromeFacts.

Lemma isPalindrome_decide (s : list byte) :
  isPalindrome s = Ok (bool_decide (s = reverse s)).
Proof.
  unfold isPalindrome.
  pose proof (loop_spec (S (length s)) [] s []) as H.
  rewrite app_nil_r in H. simpl in H. apply H. lia.
Qed.

(** One turn of the loop on a middle part of two bytes or more. *)
Lemma loop_step (fuel : nat) (p m q : list byte) (a b : byte) :
  loop (S fuel) (p ++ (a :: m ++ [b]) ++ q)
    (len p) (len p + len (a :: m ++ [b]) - 1)
  = if Byte.eqb a b
    then loop fuel ((p ++ [a]) ++ m ++ [b] ++ q)
           (len (p ++ [a])) (len (p ++ [a]) + len m - 1)
    else Ok false.
Proof.
  rewrite loop_S.
  pose proof (len_nonneg p). pose proof (len_nonneg m).
  rewrite !len_app, !len_cons, len_app, len_cons.
  change (len (@nil byte)) with 0.
  destruct (Z.ltb_spec (len p) (len p + (1 + (len m + (1 + 0))) - 1))
    as [_|Hge]; [|lia].
  assert (index (p ++ (a :: m ++ [b]) ++ q) (len p) = Ok a) as Ha.
  { apply index_lookup; [lia|]. unfold len. rewrite Nat2Z.id.
    by rewrite lookup_app_r, Nat.sub_diag by lia. }
  assert (index (p ++ (a :: m ++ [b]) ++ q)
            (len p + (1 + (len m + (1 + 0))) - 1) = Ok b) as Hb.
  { apply index_lookup; [lia|]. unfold len.
    replace (Z.to_nat (Z.of_nat (length p)
                       + (1 + (Z.of_nat (length m) + (1 + 0))) - 1))
      with (length p + S (length m))%nat by lia.
    rewrite lookup_app_r by lia.
    replace (length p + S (length m) - length p)%nat
      with (S (length m)) by lia.
    simpl. rewrite <- app_assoc, lookup_app_r by lia.
    by rewrite Nat.sub_diag. }
  rewrite (bind_Ok _ _ _ Ha), (bind_Ok _ _ _ Hb).
  destruct (Byte.eqb a b); [|done]. cbn [negb].
  replace (p ++ (a :: m ++ [b]) ++ q) with ((p ++ [a]) ++ m ++ [b] ++ q)
    by (simpl; by rewrite <- !app_assoc).
  f_equal; lia.
Qed.

Lemma length_ends (m : list byte) (a b : byte) :
  (length (a :: m ++ [b]) / 2 = S (length m / 2))%nat.
Proof.
  assert (length (a :: m ++ [b]) = length m + 1 * 2)%nat as ->.
  { cbn [length]. rewrite length_app. cbn [length]. lia. }
  rewrite Nat.div_add by lia. lia.
Qed.

Lemma palindrome_ends (m : list byte) (a b : byte) :
  a :: m ++ [b] = reverse (a :: m ++ [b]) ↔ a = b ∧ m = reverse m.
Proof.
  rewrite reverse_cons, reverse_app, reverse_singleton. simpl. split.
  - intros [= -> Heq]. by apply (inj (.++ [b])) in Heq.
  - by intros [-> <-].
Qed.

(** The loop needs one unit of fuel for each pair of bytes it compares and
    one for the test that ends it. *)
Lemma loop_half (fuel : nat) (p m q : list byte) :
  (length m / 2 < fuel)%nat →
  loop fuel (p ++ m ++ q) (len p) (len p + len m - 1)
  = Ok (bool_decide (m = reverse m)).
Proof.
  revert p m q. induction fuel as [|fuel IH]; intros p m q Hf; [lia|].
  destruct m as [|a m]; [by apply loop_spec; simpl; lia|].
  destruct (decide (m = [])) as [->|Hm].
  { rewrite loop_S.
    destruct (Z.ltb_spec (len p) (len p + len [a] - 1)) as [Hlt|_].
    - unfold len in Hlt. simpl in Hlt. lia.
    - by rewrite bool_decide_eq_true_2. }
  destruct (nonempty_snoc m Hm) as (m' & b & ->).
  rewrite length_ends in Hf. rewrite loop_step.
  destruct (Byte.eqb a b) eqn:Hab.
  - apply Byte.byte_dec_bl in Hab as <-. rewrite IH by lia. f_equal.
    apply bool_decide_ext. rewrite palindrome_ends. naive_solver.
  - f_equal. symmetry. apply bool_decide_eq_false.
    rewrite palindrome_ends. intros [-> _]. by apply Byte.eqb_false in Hab.
Qed.

(** On a palindrome no turn is saved: with less fuel the loop is cut
    short. *)
Lemma loop_short (fuel : nat) (p m q : list byte) :
  m = reverse m → (fuel <= length m / 2)%nat →
  loop fuel (p ++ m ++ q) (len p) (len p + len m - 1) = OutOfFuel.
Proof.
  revert p m q. induction fuel as [|fuel IH]; intros p m q Hm Hf; [done|].
  destruct m as [|a m]; [simpl in Hf; lia|].
  destruct (decide (m = [])) as [->|Hne]; [simpl in Hf; lia|].
  destruct (nonempty_snoc m Hne) as (m' & b & ->).
  rewrite length_ends in Hf. rewrite loop_step.
  apply palindrome_ends in Hm as [<- Hm'].
  rewrite Byte.byte_dec_lb by done. apply IH; [done|lia].
Qed.

End PalindromeMore.

Section isPalindrome_further.
Import Palindrome PalindromeFacts PalindromeMore.

(** X7.  A string and its reversal get the same answer, and a string
    followed by its reversal, with or without one byte in between, is a
    palindrome for [isPalindrome]. *)
Theorem isPalindrome_reverse (s : list byte) (c : byte) :
  isPalindrome (reverse s) = isPalindrome s
  ∧ isPalindrome (s ++ reverse s) = Ok true
  ∧ isPalindrome (s ++ c :: reverse s) = Ok true.
Proof.
  rewrite !isPalindrome_decide. split_and!; f_equal.
  - apply bool_decide_ext. rewrite reverse_involutive. split; congruence.
  - apply bool_decide_eq_true_2.
    by rewrite reverse_app, reverse_involutive.
  - apply bool_decide_eq_true_2.
    by rewrite reverse_app, reverse_cons, reverse_involutive, <- app_assoc.
Qed.

(** X8.  The loop of [isPalindrome] makes at most [len(s) / 2] turns: one
    unit of fuel for each of them and one for the last test are enough for
    the answer.  On a palindrome it makes all of them: with one unit less
    it is cut short. *)
Theorem isPalindrome_turns (s : list byte) :
  loop (S (length s / 2)) s 0 (len s - 1) = Ok (bool_decide (s = reverse s))
  ∧ (s = reverse s → loop (length s / 2) s 0 (len s - 1) = OutOfFuel).
Proof.
  split.
  - pose proof (loop_half (S (length s / 2)) [] s []) as H.
    rewrite app_nil_r in H. simpl in H. apply H. lia.
  - intros Hs. pose proof (loop_short (length s / 2) [] s [] Hs) as H.
    rewrite app_nil_r in H. simpl in H. apply H. lia.
Qed.

Lemma isPalindrome_turns_witness :
  loop 3 (list_byte_of_string "racecar") 0 6 = OutOfFuel.
Proof.
  apply (proj2 (isPalindrome_turns (list_byte_of_string "racecar"))).
  reflexivity.
Defined.

End isPalindrome_further.

(** ** functions.md: arithmetic *)

Module GoArithFacts.
Import GoInt GoIntFacts GoArith.

Lemma wrap_is_int (z : Z) : is_int (wrap z).
Proof.
  unfold is_int, min_int, max_int, wrap.
  pose proof (Z.mod_pos_bound (z + 2 ^ 63) (2 ^ 64) ltac:(lia)). lia.
Qed.

Lemma wrap_shift (z k : Z) : wrap (z + k * 2 ^ 64) = wrap z.
Proof.
  unfold wrap. replace (z + k * 2 ^ 64 + 2 ^ 63) with (z + 2 ^ 63 + k * 2 ^ 64)
    by lia.
  by rewrite Z_mod_plus_full.
Qed.

Lemma wrap_eq (z : Z) : ∃ k, wrap z = z + k * 2 ^ 64.
Proof.
  exists (- ((z + 2 ^ 63) / 2 ^ 64)). unfold wrap.
  pose proof (Z.div_mod (z + 2 ^ 63) (2 ^ 64) ltac:(lia)). lia.
Qed.

Lemma wrap_mul_r (x y : Z) : wrap (x * wrap y) = wrap (x * y).
Proof.
  destruct (wrap_eq y) as [k ->].
  replace (x * (y + k * 2 ^ 64)) with (x * y + (x * k) * 2 ^ 64) by lia.
  apply wrap_shift.
Qed.

Lemma wrap_mul_add (x y z : Z) : wrap (wrap x * y + z) = wrap (x * y + z).
Proof.
  destruct (wrap_eq x) as [k ->].
  replace ((x + k * 2 ^ 64) * y + z) with (x * y + z + (k * y) * 2 ^ 64) by lia.
  apply wrap_shift.
Qed.

(** The truncated quotient of two ints is an int, but for [MinInt / -1]. *)
Lemma quot_is_int (a b : Z) :
  is_int a → is_int b → b ≠ 0 → ¬ (a = min_int ∧ b = -1) →
  is_int (Z.quot a b).
Proof.
  unfold is_int, min_int, max_int. intros Ha Hb Hb0 Hmin.
  pose proof (Z.quot_rem a b Hb0) as Hqr.
  pose proof (Z.rem_bound_abs a b Hb0) as Hrb.
  pose proof (Z.rem_sign_mul a b Hb0) as Hrs.
  destruct (decide (b = -1)) as [->|Hb1]; [lia|].
  assert (Z.abs (Z.quot a b) <= Z.abs a) as Habs.
  { rewrite <- Z.quot_abs by done.
    apply Z.quot_le_upper_bound; [lia|]. nia. }
  destruct (decide (b = 1)) as [->|Hb2]; [lia|].
  assert (2 * Z.abs (Z.quot a b) <= Z.abs a) as Habs2.
  { rewrite <- Z.quot_abs by done.
    assert (2 <= Z.abs b) by lia.
    pose proof (Z.quot_rem (Z.abs a) (Z.abs b) ltac:(lia)) as Hqr'.
    pose proof (Z.rem_nonneg (Z.abs a) (Z.abs b) ltac:(lia) ltac:(lia)).
    pose proof (Z.quot_pos (Z.abs a) (Z.abs b) ltac:(lia) ltac:(lia)).
    nia. }
  lia.
Qed.

(** [k!] grows, is below [2^63] up to [20!], and is a multiple of [2^64]
    from [66!] on. *)
Lemma zfact_pos (k : nat) : 1 <= zfact k.
Proof. induction k as [|k IH]; simpl zfact; [lia|nia]. Qed.

Lemma zfact_mono (j k : nat) : (j <= k)%nat → zfact j <= zfact k.
Proof.
  induction 1 as [|k _ IH]; [lia|].
  pose proof (zfact_pos k). change (zfact (S k)) with (Z.of_nat (S k) * zfact k).
  nia.
Qed.

Lemma zfact_20 : zfact 20 = 2432902008176640000.
Proof. vm_compute. reflexivity. Qed.

Lemma zfact_66 (k : nat) : (66 <= k)%nat → ∃ m, zfact k = m * 2 ^ 64.
Proof.
  induction 1 as [|k _ [m IH]].
  - exists (zfact 66 / 2 ^ 64). vm_compute. reflexivity.
  - exists (Z.of_nat (S k) * m).
    change (zfact (S k)) with (Z.of_nat (S k) * zfact k). rewrite IH. lia.
Qed.

End GoArithFacts.

Module TutorialFacts.
Import GoInt GoIntFacts GoArith GoArithFacts Tutorial.

(** A call of [factorial]. *)
Lemma factorial_S (fuel : nat) (n : Z) :
  factorial (S fuel) n
  = if n =? 0 then Ok 1 else r ← factorial fuel (sub n 1); Ok (mul n r).
Proof. reflexivity. Qed.

Lemma factorial_wrap (fuel k : nat) :
  (k < fuel)%nat → Z.of_nat k <= max_int →
  factorial fuel (Z.of_nat k) = Ok (wrap (zfact k)).
Proof.
  revert fuel. induction k as [|k IH]; intros fuel Hf Hk.
  - destruct fuel; [lia|]. done.
  - destruct fuel as [|fuel]; [lia|]. rewrite factorial_S.
    destruct (Z.eqb_spec (Z.of_nat (S k)) 0) as [?|_]; [lia|].
    unfold sub. rewrite wrap_id by (unfold is_int, min_int, max_int in *; lia).
    replace (Z.of_nat (S k) - 1) with (Z.of_nat k) by lia.
    rewrite IH by lia. cbn [mbind outcome_bind]. unfold mul.
    by rewrite wrap_mul_r.
Qed.

Lemma filter_loop_app (f : Z → bool) (slice result : list Z) :
  filter_loop f slice result = result ++ List.filter f slice.
Proof.
  revert result. induction slice as [|val slice IH]; intros result; simpl.
  - by rewrite app_nil_r.
  - destruct (f val); rewrite IH; [by rewrite <- app_assoc | done].
Qed.

Lemma mapStrings_loop_spec (transform : string → string)
    (input pre : list string) :
  mapStrings_loop transform input (len pre)
    (pre ++ replicate (length input) EmptyString)
  = Ok (pre ++ (transform <$> input)).
Proof.
  revert pre. induction input as [|v input IH]; intros pre; [done|].
  cbn [mapStrings_loop length replicate]. unfold store.
  pose proof (len_nonneg pre).
  destruct (Z.leb_spec 0 (len pre)); [|lia].
  rewrite len_app, len_cons.
  pose proof (len_nonneg (replicate (length input) EmptyString)).
  destruct (Z.ltb_spec (len pre)
              (len pre + (1 + len (replicate (length input) EmptyString))));
    [|lia].
  cbn [andb mbind outcome_bind].
  replace (Z.to_nat (len pre)) with (length pre + 0)%nat
    by (unfold len; lia).
  rewrite insert_app_r. cbn [insert list_insert].
  replace (len pre + 1) with (len (pre ++ [transform v]))
    by (rewrite len_app, len_cons; unfold len; simpl; lia).
  replace (pre ++ transform v :: replicate (length input) EmptyString)
    with ((pre ++ [transform v]) ++ replicate (length input) EmptyString)
    by (by rewrite <- app_assoc).
  rewrite IH. by rewrite <- app_assoc.
Qed.

Lemma compute_squares (cache : gmap Z Z) (n : Z) :
  squares cache →
  (compute cache n).2 = mul n n
  ∧ squares (compute cache n).1
  ∧ (compute cache n).1 !! n = Some (mul n n)
  ∧ dom (compute cache n).1 = {[n]} ∪ dom cache.
Proof.
  intros Hsq. unfold compute. destruct (cache !! n) as [r|] eqn:Hn; simpl.
  - pose proof (Hsq n r Hn) as ->. split_and!; [done..|].
    apply (elem_of_dom_2 (D := gset Z)) in Hn. set_solver.
  - split_and!; [done | | apply lookup_insert_eq | apply dom_insert_L].
    intros k v. destruct (decide (k = n)) as [->|Hne].
    + rewrite lookup_insert_eq. by intros [= <-].
    + rewrite lookup_insert_ne by done. apply Hsq.
Qed.

Lemma compute_all_squares (cache : gmap Z Z) (ns : list Z) :
  squares cache →
  (compute_all cache ns).2 = (λ n, mul n n) <$> ns
  ∧ squares (compute_all cache ns).1
  ∧ dom (compute_all cache ns).1 = list_to_set ns ∪ dom cache.
Proof.
  revert cache. induction ns as [|n ns IH]; intros cache Hsq.
  { simpl. split_and!; [done..|]. set_solver. }
  cbn [compute_all].
  destruct (compute_squares cache n Hsq) as (Hr & Hsq' & _ & Hdom).
  destruct (compute cache n) as [cache' r]. simpl in *.
  destruct (IH cache' Hsq') as (Hrs & Hsq'' & Hdom').
  destruct (compute_all cache' ns) as [cache'' rs]. simpl in *.
  split_and!; [by rewrite Hr, Hrs | done |].
  rewrite Hdom', Hdom. set_solver.
Qed.

End TutorialFacts.

Section tutorial_properties.
Import GoInt GoIntFacts GoArith GoArithFacts Tutorial TutorialFacts.

(** X9.  [divide] on two ints: with a zero divisor it returns the error and
    two zeros; otherwise no error, a remainder smaller than the divisor in
    absolute value and of the sign of the dividend, and a quotient with
    [quotient * divisor + remainder == dividend] in Go's arithmetic.  The
    equation holds in the integers too, but for [MinInt / -1], where the
    quotient wraps to [MinInt]. *)
Theorem divide_correct (a b : Z) :
  is_int a → is_int b →
  (b = 0 →
   divide a b = (0, 0, Some "division by zero is not allowed"%string))
  ∧ (b ≠ 0 →
     ∃ q r, divide a b = (q, r, None)
            ∧ is_int q ∧ is_int r
            ∧ add (mul q b) r = a
            ∧ Z.abs r < Z.abs b ∧ 0 <= r * a
            ∧ (¬ (a = min_int ∧ b = -1) → q * b + r = a)
            ∧ (a = min_int → b = -1 → q = min_int ∧ r = 0)).
Proof.
  intros Ha Hb. split; [by intros ->|]. intros Hb0.
  unfold divide. destruct (Z.eqb_spec b 0) as [?|_]; [done|].
  exists (quo a b), (rem a b). unfold quo, rem.
  pose proof (Z.quot_rem a b Hb0) as Hqr.
  pose proof (Z.rem_bound_abs a b Hb0) as Hrb.
  pose proof (Z.rem_sign_mul a b Hb0) as Hrs.
  split_and!; [done | apply wrap_is_int | | | done | done | |].
  - unfold is_int, min_int, max_int in *. lia.
  - unfold add, mul. rewrite wrap_wrap_add, wrap_mul_add.
    replace (Z.quot a b * b + Z.rem a b) with a by lia. by apply wrap_id.
  - intros Hmin. rewrite wrap_id by (by apply quot_is_int). lia.
  - intros -> ->. vm_compute. done.
Qed.

Lemma divide_correct_witness :
  divide 13 0 = (0, 0, Some "division by zero is not allowed"%string)
  ∧ ∃ q r, divide (-13) 5 = (q, r, None) ∧ q * 5 + r = -13.
Proof.
  assert (is_int 13 ∧ is_int (-13) ∧ is_int 0 ∧ is_int 5) as (? & ? & ? & ?).
  { unfold is_int, min_int, max_int. lia. }
  split.
  - apply (divide_correct 13 0); [done..|reflexivity].
  - destruct (proj2 (divide_correct (-13) 5 ltac:(done) ltac:(done)))
      as (q & r & Hd & _ & _ & _ & _ & _ & Hexact & _); [lia|].
    exists q, r. split; [exact Hd|]. apply Hexact. unfold min_int. lia.
Defined.

(** X10.  [factorial(n)] for an int [n >= 0], given stack for [n + 1]
    calls, returns [n!] reduced to 64 bits: [n!] itself up to [n = 20], and
    [0] from [n = 66] on. *)
Theorem factorial_value (fuel : nat) (n : Z) :
  0 <= n → is_int n → n < Z.of_nat fuel →
  factorial fuel n = Ok (wrap (zfact (Z.to_nat n)))
  ∧ (n <= 20 → factorial fuel n = Ok (zfact (Z.to_nat n)))
  ∧ (66 <= n → factorial fuel n = Ok 0).
Proof.
  intros Hn Hint Hf.
  assert (factorial fuel n = Ok (wrap (zfact (Z.to_nat n)))) as ->.
  { rewrite <- (Z2Nat.id n) at 1 by done.
    apply factorial_wrap; [lia|]. unfold is_int in Hint. lia. }
  split_and!; [done | |]; intros Hn'; f_equal.
  - apply wrap_id. pose proof (zfact_pos (Z.to_nat n)).
    pose proof (zfact_mono (Z.to_nat n) 20 ltac:(lia)) as Hle.
    rewrite zfact_20 in Hle. unfold is_int, min_int, max_int. lia.
  - destruct (zfact_66 (Z.to_nat n) ltac:(lia)) as [m ->].
    apply wrap_zero. by exists m.
Qed.

Lemma factorial_value_witness :
  factorial 6 5 = Ok 120 ∧ factorial 100 70 = Ok 0.
Proof.
  assert (is_int 5 ∧ is_int 70) as [? ?].
  { unfold is_int, min_int, max_int. lia. }
  split.
  - apply (factorial_value 6 5); [lia | done | lia | lia].
  - apply (factorial_value 100 70); [lia | done | lia | lia].
Defined.

(** Counting down from [n >= 0] takes [n + 1] calls. *)
Lemma factorial_short (fuel : nat) (n : Z) :
  0 <= n → is_int n → Z.of_nat fuel <= n → factorial fuel n = OutOfFuel.
Proof.
  revert n. induction fuel as [|fuel IH]; intros n Hn Hint Hf; [done|].
  rewrite factorial_S. destruct (Z.eqb_spec n 0) as [?|_]; [lia|].
  unfold sub. unfold is_int, min_int, max_int in *.
  rewrite wrap_id by (unfold is_int, min_int, max_int; lia).
  rewrite IH; [done | lia | lia | lia].
Qed.

(** X11.  [factorial(n)] for an int [n < 0] counts down to [MinInt], wraps
    to [MaxInt] and counts down again: it does not return within
    [n + 2^64] nested calls, which is [2^63] calls or more. *)
Theorem factorial_negative (fuel : nat) (n : Z) :
  n < 0 → is_int n → Z.of_nat fuel <= n + 2 ^ 64 →
  factorial fuel n = OutOfFuel.
Proof.
  revert n. induction fuel as [|fuel IH]; intros n Hn Hint Hf; [done|].
  rewrite factorial_S. destruct (Z.eqb_spec n 0) as [?|_]; [lia|].
  unfold sub. unfold is_int, min_int, max_int in *.
  destruct (decide (n = - 2 ^ 63)) as [->|Hmin].
  - change (wrap (- 2 ^ 63 - 1)) with (2 ^ 63 - 1).
    rewrite factorial_short; [done | lia | | lia].
    unfold is_int, min_int, max_int. lia.
  - rewrite wrap_id by (unfold is_int, min_int, max_int; lia).
    rewrite IH; [done | lia | lia | lia].
Qed.

Lemma factorial_negative_witness : factorial 1000 (-1) = OutOfFuel.
Proof.
  apply factorial_negative; [lia | | ]; unfold is_int, min_int, max_int; lia.
Defined.

Lemma counter_calls_from (k : nat) (count : Z) :
  0 <= count → count + Z.of_nat k <= max_int →
  counter_calls k count
  = (count + Z.of_nat k, seqZ (count + 1) (Z.of_nat k)).
Proof.
  revert count. induction k as [|k IH]; intros count Hc Hk.
  { simpl. f_equal. lia. }
  cbn [counter_calls counter_next]. unfold add.
  rewrite wrap_id by (unfold is_int, min_int, max_int in *; lia).
  rewrite IH by lia.
  rewrite (seqZ_cons (count + 1) (Z.of_nat (S k))) by lia.
  f_equal; [lia|]. f_equal. f_equal; lia.
Qed.

(** X12.  The closure returned by [counter] returns [1, 2, ..., k] on its
    first [k] calls, and [count] is [k] after them, as long as [k] is an
    int. *)
Theorem counter_counts (k : nat) :
  Z.of_nat k <= max_int →
  counter_calls k counter = (Z.of_nat k, seqZ 1 (Z.of_nat k)).
Proof.
  intros Hk. unfold counter. rewrite counter_calls_from by lia. done.
Qed.

Lemma counter_counts_witness :
  counter_calls 4 counter = (4, [1; 2; 3; 4]).
Proof. apply (counter_counts 4). unfold max_int. lia. Defined.

(** X13.  Whatever numbers the closure returned by [memoize] is called on,
    and however often, every call returns the square of its argument (in
    Go's arithmetic), and the cache ends up holding exactly the numbers
    asked for, each with its square. *)
Theorem memoize_squares (ns : list Z) :
  (compute_all memoize ns).2 = (λ n, mul n n) <$> ns
  ∧ dom (compute_all memoize ns).1 = list_to_set ns
  ∧ ∀ n v, (compute_all memoize ns).1 !! n = Some v → v = mul n n.
Proof.
  destruct (compute_all_squares memoize ns) as (Hrs & Hsq & Hdom).
  { intros k v. unfold memoize. by rewrite lookup_empty. }
  split_and!; [done | | done].
  rewrite Hdom. unfold memoize. set_solver.
Qed.

Lemma memoize_squares_witness : 16 = mul 4 4.
Proof.
  apply (proj2 (proj2 (memoize_squares [3; 4; 3])) 4 16). reflexivity.
Defined.

(** X14.  A second call of the closure on the same number finds it in the
    cache: it returns what the first call returned and leaves the cache as
    the first call left it, whatever the cache held before. *)
Theorem memoize_hit (cache : gmap Z Z) (n : Z) :
  compute (compute cache n).1 n = compute cache n.
Proof.
  unfold compute at 2 3. destruct (cache !! n) as [r|] eqn:Hn; simpl.
  - unfold compute. by rewrite Hn.
  - unfold compute. by rewrite lookup_insert_eq.
Qed.

(** X15.  [filter] returns the elements of the slice that satisfy [f], all
    of them and no other, in their order; filtering the result again
    changes nothing. *)
Theorem filter_correct (slice : list Z) (f : Z → bool) :
  filter slice f = List.filter f slice
  ∧ filter slice f `sublist_of` slice
  ∧ (∀ x, x ∈ filter slice f ↔ x ∈ slice ∧ f x = true)
  ∧ filter (filter slice f) f = filter slice f.
Proof.
  assert (∀ l, filter l f = List.filter f l) as Heq.
  { intros l. unfold filter. by rewrite filter_loop_app. }
  rewrite !Heq. split_and!; [done | | |].
  - induction slice as [|x slice IH]; simpl; [done|].
    destruct (f x); [by apply sublist_skip | by apply sublist_cons].
  - intros x. rewrite !list_elem_of_In. apply List.filter_In.
  - induction slice as [|x slice IH]; simpl; [done|].
    destruct (f x) eqn:Hx; simpl; [rewrite Hx; by f_equal | done].
Qed.

Lemma filter_correct_witness : 3 ∈ filter [1; 2; 3; 4] (λ n, 2 <? n).
Proof.
  apply (proj1 (proj2 (proj2 (filter_correct [1; 2; 3; 4] (λ n, 2 <? n))))).
  split; [|reflexivity]. do 2 apply list_elem_of_further. apply list_elem_of_here.
Defined.

(** X16.  [mapStrings] writes every index of the slice it made, none out
    of range, and returns the strings of [input] transformed one by one,
    in their order. *)
Theorem mapStrings_correct (input : list string)
    (transform : string → string) :
  mapStrings input transform = Ok (transform <$> input).
Proof.
  unfold mapStrings.
  exact (mapStrings_loop_spec transform input []).
Qed.

End tutorial_properties.

(** ** functions.md: the solution in Python *)

Module PyThreeSumFacts.
Import TripletSpec ThreeSumFacts ThreeSumComplete PyThreeSum PySpec.

Lemma py_index_val (nums : list Z) (i : Z) :
  0 <= i < len nums → py_index nums i = Ok (val nums i).
Proof.
  intros Hi. unfold py_index.
  destruct (Z.ltb_spec i 0); [lia|]. by apply index_val.
Qed.

(** One turn of the loop of [find_two_sum_pairs]. *)
Lemma pairs_loop_S fuel nums target_sum left right triplets :
  pairs_loop (S fuel) nums target_sum left right triplets =
    if left <? right then
      a ← py_index nums left;
      b ← py_index nums right;
      if a + b =? target_sum then
        a ← py_index nums left;
        b ← py_index nums right;
        left' ← skip_left (S fuel) nums left right;
        right' ← skip_right (S fuel) nums left' right;
        pairs_loop fuel nums target_sum (left' + 1) (right' - 1)
          (triplets ++ [[- target_sum; a; b]])
      else if a + b <? target_sum then
        pairs_loop fuel nums target_sum (left + 1) right triplets
      else pairs_loop fuel nums target_sum left (right - 1) triplets
    else Ok triplets.
Proof. reflexivity. Qed.

Lemma pair_found_mono nums target lo hi lo' hi' t :
  lo' <= lo → hi <= hi' →
  pair_found nums target lo hi t → pair_found nums target lo' hi' t.
Proof.
  intros ?? (l & r & ? & ? & ? & ? & ?). exists l, r. split_and!; try done; lia.
Qed.

Section loops.
Variable nums : list Z.
Hypothesis nums_sorted : StronglySorted Z.le nums.

Lemma val_mono (x y : Z) :
  0 <= x → x <= y → y < len nums → val nums x <= val nums y.
Proof. intros. apply val_sorted; [done | lia..]. Qed.

Lemma py_skip_left_spec (fuel : nat) (left right : Z) :
  0 <= left < right → right < len nums → right - left < Z.of_nat fuel →
  ∃ left', skip_left fuel nums left right = Ok left'
           ∧ left <= left' < right
           ∧ val nums left' = val nums left
           ∧ (left' + 1 < right → val nums left' ≠ val nums (left' + 1)).
Proof.
  revert left. induction fuel as [|fuel IH]; intros left Hl Hr Hf; [lia|].
  simpl. destruct (Z.ltb_spec (left + 1) right) as [Hlt|Hge].
  - rewrite (bind_Ok _ _ _ (py_index_val nums (left + 1) ltac:(lia))).
    rewrite (bind_Ok _ _ _ (py_index_val nums left ltac:(lia))).
    destruct (Z.eqb_spec (val nums (left + 1)) (val nums left)) as [Heq|Hne].
    + destruct (IH (left + 1)) as (left' & -> & ? & Hv & ?); [lia..|].
      exists left'. split_and!; [done | lia | lia | congruence | done].
    + exists left. split_and!; [done | lia | lia | done |]. intros _. congruence.
  - exists left. split_and!; [done | lia | lia | done | lia].
Qed.

Lemma py_skip_right_spec (fuel : nat) (left right : Z) :
  0 <= left < right → right < len nums → right - left < Z.of_nat fuel →
  ∃ right', skip_right fuel nums left right = Ok right'
            ∧ left < right' <= right
            ∧ val nums right' = val nums right.
Proof.
  revert right. induction fuel as [|fuel IH]; intros right Hl Hr Hf; [lia|].
  simpl. destruct (Z.ltb_spec left (right - 1)) as [Hlt|Hge].
  - rewrite (bind_Ok _ _ _ (py_index_val nums (right - 1) ltac:(lia))).
    rewrite (bind_Ok _ _ _ (py_index_val nums right ltac:(lia))).
    destruct (Z.eqb_spec (val nums (right - 1)) (val nums right)) as [Heq|Hne].
    + destruct (IH (right - 1)) as (right' & -> & ? & Hv); [lia..|].
      exists right'. split_and!; [done | lia | lia | congruence].
    + exists right. split_and!; [done | lia..| done].
  - exists right. split_and!; [done | lia..| done].
Qed.

(** The loop of [find_two_sum_pairs] appends, in increasing order, one
    triplet for each pair of values of the range whose sum is
    [target_sum]. *)
Lemma pairs_loop_spec (fuel : nat) (target left right : Z)
    (triplets : list (list Z)) :
  0 <= left → right < len nums → Z.max 0 (right - left) < Z.of_nat fuel →
  ∃ out, pairs_loop fuel nums target left right triplets = Ok (triplets ++ out)
         ∧ Forall (pair_found nums target left right) out
         ∧ StronglySorted triplet_lt out
         ∧ ∀ l r, left <= l → l < r → r <= right →
             val nums l + val nums r = target →
             [- target; val nums l; val nums r] ∈ out.
Proof.
  revert left right triplets.
  induction fuel as [|fuel IH]; intros left right triplets Hl Hr Hf; [lia|].
  rewrite pairs_loop_S. destruct (Z.ltb_spec left right) as [Hlt|Hge].
  2:{ exists []. rewrite app_nil_r.
      split_and!; [done | constructor | constructor |]. intros; lia. }
  rewrite (bind_Ok _ _ _ (py_index_val nums left ltac:(lia))).
  rewrite (bind_Ok _ _ _ (py_index_val nums right ltac:(lia))).
  destruct (Z.eqb_spec (val nums left + val nums right) target) as [Hz|Hnz].
  - rewrite (bind_Ok _ _ _ (py_index_val nums left ltac:(lia))).
    rewrite (bind_Ok _ _ _ (py_index_val nums right ltac:(lia))).
    destruct (py_skip_left_spec (S fuel) left right)
      as (left' & Hsl & Hl' & Hvl & Hne); [lia..|].
    destruct (py_skip_right_spec (S fuel) left' right)
      as (right' & Hsr & Hr' & Hvr); [lia..|].
    rewrite (bind_Ok _ _ _ Hsl), (bind_Ok _ _ _ Hsr).
    destruct (IH (left' + 1) (right' - 1)
                (triplets ++ [[- target; val nums left; val nums right]]))
      as (out & -> & Hout & Hss & Hall); [lia..|].
    exists ([- target; val nums left; val nums right] :: out).
    rewrite <- app_assoc.
    assert (∀ l, left' + 1 <= l → l < right → val nums left < val nums l)
      as Hgrow.
    { intros l ? ?. specialize (Hne ltac:(lia)).
      pose proof (val_mono left' (left' + 1) ltac:(lia) ltac:(lia) ltac:(lia)).
      pose proof (val_mono (left' + 1) l ltac:(lia) ltac:(lia) ltac:(lia)).
      lia. }
    split_and!; [done | | |].
    + constructor.
      * exists left, right. split_and!; try done; lia.
      * eapply Forall_impl; [exact Hout|].
        intros t. apply pair_found_mono; lia.
    + constructor; [done|].
      eapply Forall_impl; [exact Hout|].
      intros t (l & r & ? & ? & ? & -> & _). right. split; [done|].
      change (val nums left < val nums l). apply Hgrow; lia.
    + intros l r ? ? ? Hsum.
      destruct (decide (val nums l = val nums left)) as [Heq|Hneq].
      * assert (val nums r = val nums right) as -> by lia. rewrite Heq.
        apply list_elem_of_here.
      * pose proof (val_mono left l ltac:(lia) ltac:(lia) ltac:(lia)).
        assert (left' < l) as Hll.
        { destruct (Z.le_gt_cases l left') as [Hle|]; [|done].
          pose proof (val_mono l left' ltac:(lia) Hle ltac:(lia)). lia. }
        assert (r < right') as Hrr.
        { destruct (Z.le_gt_cases right' r) as [Hle|]; [|lia].
          pose proof (val_mono right' r ltac:(lia) Hle ltac:(lia)). lia. }
        apply list_elem_of_further, Hall; [lia..|done].
  - destruct (Z.ltb_spec (val nums left + val nums right) target).
    + destruct (IH (left + 1) right triplets)
        as (out & -> & Hout & Hss & Hall); [lia..|].
      exists out. split_and!; [done | | done |].
      * eapply Forall_impl; [exact Hout|].
        intros t. apply pair_found_mono; lia.
      * intros l r ? ? ? Hsum.
        destruct (decide (l = left)) as [->|]; [|apply Hall; [lia..|done]].
        pose proof (val_mono r right ltac:(lia) ltac:(lia) ltac:(lia)). lia.
    + destruct (IH left (right - 1) triplets)
        as (out & -> & Hout & Hss & Hall); [lia..|].
      exists out. split_and!; [done | | done |].
      * eapply Forall_impl; [exact Hout|].
        intros t. apply pair_found_mono; lia.
      * intros l r ? ? ? Hsum.
        destruct (decide (r = right)) as [->|]; [|apply Hall; [lia..|done]].
        pose proof (val_mono left l ltac:(lia) ltac:(lia) ltac:(lia)). lia.
Qed.

(** The loop of [three_sum] appends, in increasing order, one triplet for
    each three values of sum zero at three indices, the first of them from
    [i] on. *)
Lemma range_loop_spec (k : nat) (i : Z) (result : list (list Z)) :
  0 <= i → i + Z.of_nat k = len nums →
  ∃ out, range_loop (seqZ i (Z.of_nat k)) nums (len nums) result
         = Ok (result ++ out)
         ∧ Forall (triplet_found nums i) out
         ∧ StronglySorted triplet_lt out
         ∧ ∀ j l r, i <= j → j < l → l < r → r < len nums →
             (j = 0 ∨ val nums (j - 1) < val nums j) →
             val nums j + val nums l + val nums r = 0 →
             [val nums j; val nums l; val nums r] ∈ out.
Proof.
  revert i result. induction k as [|k IH]; intros i result Hi Hk.
  { exists []. rewrite app_nil_r. simpl.
    split_and!; [done | constructor | constructor |]. intros; lia. }
  rewrite seqZ_cons by lia.
  replace (Z.succ i) with (i + 1) by lia.
  replace (Z.pred (Z.of_nat (S k))) with (Z.of_nat k) by lia.
  cbn [range_loop].
  rewrite (bind_Ok _ _ _ (py_index_val nums i ltac:(lia))).
  destruct (Z.ltb_spec 0 (val nums i)) as [Hpos|Hv].
  { exists []. rewrite app_nil_r.
    split_and!; [done | constructor | constructor |].
    intros j l r ? ? ? ? _ Hsum.
    pose proof (val_mono i j ltac:(lia) ltac:(lia) ltac:(lia)).
    pose proof (val_mono j l ltac:(lia) ltac:(lia) ltac:(lia)).
    pose proof (val_mono l r ltac:(lia) ltac:(lia) ltac:(lia)). lia. }
  assert (∃ skip : bool,
             (if 0 <? i
              then a ← py_index nums i; b ← py_index nums (i - 1); Ok (a =? b)
              else Ok false) = Ok skip
             ∧ (skip = true → 0 < i ∧ val nums i = val nums (i - 1))
             ∧ (skip = false → i = 0 ∨ val nums (i - 1) < val nums i))
    as (skip & -> & Hskip1 & Hskip0).
  { destruct (Z.ltb_spec 0 i) as [Hi0|Hi0].
    - rewrite (bind_Ok _ _ _ (py_index_val nums i ltac:(lia))).
      rewrite (bind_Ok _ _ _ (py_index_val nums (i - 1) ltac:(lia))).
      eexists. split; [reflexivity|]. split.
      + intros Heq%Z.eqb_eq. done.
      + intros Hne%Z.eqb_neq. right.
        pose proof (val_mono (i - 1) i ltac:(lia) ltac:(lia) ltac:(lia)). lia.
    - exists false. split_and!; [done | done | intros _; left; lia]. }
  cbn [mbind outcome_bind]. destruct skip.
  - destruct (Hskip1 eq_refl) as [Hi0 Heq].
    destruct (IH (i + 1) result) as (out & -> & Hout & Hss & Hall); [lia..|].
    exists out. split_and!; [done | | done |].
    + eapply Forall_impl; [exact Hout|].
      intros t (j & l & r & ? & ?). exists j, l, r. split; [lia|done].
    + intros j l r ? ? ? ? Hfirst Hsum.
      destruct (decide (j = i)) as [->|]; [lia|].
      apply Hall; [lia..|done|done].
  - rewrite (bind_Ok _ _ _ (py_index_val nums i ltac:(lia))).
    unfold find_two_sum_pairs.
    destruct (pairs_loop_spec (S (length nums)) (- val nums i) (i + 1)
                (len nums - 1) [])
      as (out1 & Hscan & Hout1 & Hss1 & Hall1); [lia | lia | unfold len; lia |].
    rewrite Hscan. cbn [mbind outcome_bind app].
    destruct (IH (i + 1) (result ++ out1))
      as (out2 & -> & Hout2 & Hss2 & Hall2); [lia..|].
    exists (out1 ++ out2). rewrite <- app_assoc.
    assert (Forall (triplet_found nums i) out1) as Hout1'.
    { eapply Forall_impl; [exact Hout1|].
      intros t (l & r & ? & ? & ? & -> & ?). exists i, l, r.
      rewrite Z.opp_involutive.
      split_and!; [lia | lia | lia | lia | by apply Hskip0 | done | lia]. }
    split_and!; [done | | |].
    + apply Forall_app. split; [done|].
      eapply Forall_impl; [exact Hout2|].
      intros t (j & l & r & ? & ?). exists j, l, r. split; [lia|done].
    + apply StronglySorted_app_2; [|done..].
      intros t1 t2 Ht1 Ht2.
      rewrite Forall_forall in Hout1, Hout2.
      destruct (Hout1 _ Ht1) as (l1 & r1 & _ & _ & _ & -> & _).
      destruct (Hout2 _ Ht2) as (j & l2 & r2 & ? & ? & ? & ? & Hprev & -> & _).
      left. rewrite Z.opp_involutive. change (val nums i < val nums j).
      destruct Hprev as [->|Hprev]; [lia|].
      pose proof (val_mono i (j - 1) ltac:(lia) ltac:(lia) ltac:(lia)). lia.
    + intros j l r ? ? ? ? Hfirst Hsum. apply elem_of_app.
      destruct (decide (j = i)) as [->|];
        [left | right; apply Hall2; [lia..|done|done]].
      rewrite <- (Z.opp_involutive (val nums i)).
      apply Hall1; [lia..|].
  { lia. }
Qed.

End loops.

(** What [three_sum] returns: the triplets [a <= b <= c] of sum zero made
    of three elements of the input, each of them once, in increasing
    order. *)
Lemma three_sum_spec (nums : list Z) :
  ∃ res, three_sum nums = (sort_Ints nums, Ok res)
         ∧ StronglySorted triplet_lt res
         ∧ ∀ t, t ∈ res ↔
             ∃ a b c, t = [a; b; c] ∧ a <= b ∧ b <= c ∧ a + b + c = 0
                      ∧ ∃ rest, nums ≡ₚ a :: b :: c :: rest.
Proof.
  unfold three_sum.
  pose proof (sort_Ints_sorted nums) as Hs.
  destruct (range_loop_spec (sort_Ints nums) Hs (length (sort_Ints nums)) 0 [])
    as (res & Hrun & Hres & Hss & Hall); [lia | unfold len; lia |].
  exists res. unfold len at 1. rewrite Hrun. split_and!; [done..|].
  intros t. split.
  - intros Ht. rewrite Forall_forall in Hres.
    destruct (Hres _ Ht) as (j & l & r & ? & ? & ? & ? & _ & -> & Hsum).
    eexists _, _, _. split_and!; [done | | | done |].
    + apply val_sorted; [done | lia..].
    + apply val_sorted; [done | lia..].
    + destruct (lookup3_perm (sort_Ints nums) (Z.to_nat j) (Z.to_nat l)
                  (Z.to_nat r) (val (sort_Ints nums) j)
                  (val (sort_Ints nums) l) (val (sort_Ints nums) r))
        as [rest Hrest]; [lia | lia | apply val_lookup; lia..|].
      exists rest. etrans; [symmetry; apply sort_Ints_perm | exact Hrest].
  - intros (a & b & c & -> & Hab & Hbc & Hsum & rest & Hp).
    destruct (sorted_indices nums rest a b c Hp Hab Hbc)
      as (j & l & r & ? & ? & ? & ? & <- & <- & <-).
    destruct (first_index (sort_Ints nums) Hs j ltac:(lia))
      as (j0 & ? & Hj0 & Hfirst).
    rewrite <- Hj0 in *. apply Hall; [lia..|done|done].
Qed.

End PyThreeSumFacts.

Section python_properties.
Import GoInt GoIntFacts ThreeSum TripletSpec ThreeSumFacts ThreeSumComplete.
Import PyThreeSum PySpec PyThreeSumFacts.

(** [threeSum] finds every triplet when the values are small. *)
Lemma threeSum_complete (nums : list Z) (res : list (list Z)) (a b c : Z) :
  Forall (λ x, - 2 ^ 61 <= x <= 2 ^ 61) nums →
  snd (threeSum nums) = Ok res →
  a <= b → b <= c → a + b + c = 0 → (∃ rest, nums ≡ₚ a :: b :: c :: rest) →
  [a; b; c] ∈ res.
Proof.
  intros Hsmall Hres Hab Hbc Hsum [rest Hp]. rewrite Forall_forall in Hsmall.
  destruct (sorted_indices nums rest a b c Hp Hab Hbc)
    as (j & l & r & ? & ? & ? & ? & <- & <- & <-).
  pose proof (sort_Ints_sorted nums) as Hs.
  assert (∀ i, 0 <= i < len (sort_Ints nums) →
            - 2 ^ 61 <= val (sort_Ints nums) i <= 2 ^ 61) as Hsmall'.
  { intros i Hi. by apply Hsmall, elem_of_sort_Ints, val_elem_of. }
  destruct (first_index (sort_Ints nums) Hs j ltac:(lia))
    as (j0 & ? & Hj0 & Hfirst).
  rewrite <- Hj0 in *.
  unfold threeSum in Hres. cbn [snd] in Hres.
  destruct (anchors_complete (sort_Ints nums) Hs Hsmall'
              (S (length (sort_Ints nums))) 0 [] res
              ltac:(lia) ltac:(unfold len; lia) Hres) as [_ Hall].
  apply Hall; [lia..|done|done].
Qed.

Lemma triplet_lt_NoDup (l : list (list Z)) :
  StronglySorted triplet_lt l → NoDup l.
Proof.
  induction 1 as [|t l _ IH Hlt]; constructor; [|done].
  intros Hin. rewrite Forall_forall in Hlt.
  by apply (triplet_lt_irrefl t), Hlt.
Qed.


(** X18.  When every input value is between [-2^61] and [2^61], the Go
    [threeSum] and the Python [three_sum] leave the same slice and return
    the same triplets in the same order.  Without the bound they can
    differ: on [-2^63, -2^63, 0] Python returns no triplet and Go one. *)
Theorem threeSum_agrees_with_python (nums : list Z) :
  (Forall (λ x, - 2 ^ 61 <= x <= 2 ^ 61) nums →
   threeSum nums = three_sum nums)
  ∧ snd (three_sum overflow_input) = Ok []
  ∧ snd (threeSum overflow_input) = Ok [overflow_input].
Proof.
  split_and!; [|vm_compute; reflexivity..].
  intros Hsmall.
  destruct (threeSum_spec nums) as (go & Hgo & _ & Hss_go & _).
  destruct (three_sum_spec nums) as (py & Hpy & Hss_py & Hmem).
  rewrite Hgo, Hpy. do 2 f_equal.
  assert (snd (threeSum nums) = Ok go) as Hres by (by rewrite Hgo).
  apply (StronglySorted_unique_strong triplet_lt); [|done..|].
  { intros t1 t2 _ _ H12 H21. exfalso. unfold triplet_lt in *. lia. }
  apply NoDup_Permutation; [by apply triplet_lt_NoDup..|].
  intros t. rewrite Hmem. split.
  - intros Ht.
    destruct (returned_triplet nums go t Hres Ht)
      as (a & b & c & -> & ? & ? & ? & Ha & Hb & Hc & Hw & Hrest).
    rewrite Forall_forall in Hsmall.
    pose proof (Hsmall _ Ha). pose proof (Hsmall _ Hb). pose proof (Hsmall _ Hc).
    exists a, b, c. split_and!; [done..| |done].
    apply wrap_zero_small; [lia|done].
  - intros (a & b & c & -> & ? & ? & ? & ?).
    by apply (threeSum_complete nums).
Qed.

Lemma threeSum_agrees_with_python_witness :
  threeSum [-1; 0; 1; 2; -1; -4] = three_sum [-1; 0; 1; 2; -1; -4].
Proof.
  apply (proj1 (threeSum_agrees_with_python [-1; 0; 1; 2; -1; -4])).
  repeat constructor; lia.
Defined.


End python_properties.
